(** * Client-side session controller of playwright-crx ([src/client/crx.ts])

    A shallow embedding of the three classes of [crx.ts]:
    - [Crx], the controller with its two session slots, as a labelled
      transition system over explicit task states (one task per call of
      an async method, one program point per [await]);
    - [CrxRecorder], the recorder state machine driven by channel events;
    - [CrxApplication], the session with its event forwarding and the
      parameter normalisation of [attachAll]. *)

From Stdlib Require Import ZArith String.
From stdpp Require Import gmap strings list fin_maps.

Open Scope string_scope.
Open Scope list_scope.
Set Warnings "-register-all,-clear-no-such-hyp".

(** ** JavaScript values crossing the channel *)

Inductive Value :=
| VUndefined
| VBool (b : bool)
| VNum (n : Z)
| VStr (s : string)
| VChannel (guid : nat)      (* a protocol channel reference *)
| VObject (guid : nat)       (* the client object behind a channel: [channel._object] *)
| VArr (l : list Value)
| VRec (fields : list (string * Value)).

(** An options object, as passed to [start], [attachAll], [showRecorder]. *)
Abbreviation Obj := (gmap string Value).

(** JavaScript truthiness, as used by [options?.incognito] and
    [urlOrUrls ? ... : undefined]. *)
Definition truthy (v : Value) : bool :=
  match v with
  | VUndefined => false
  | VBool b => b
  | VNum n => negb (n =? 0)%Z
  | VStr s => negb (String.eqb s "")
  | VChannel _ | VObject _ | VArr _ | VRec _ => true
  end.

(** [typeof v === 'string'] *)
Definition is_string (v : Value) : bool :=
  match v with VStr _ => true | _ => false end.

(** Property read [o.k]; a missing property reads as [undefined]. *)
Definition prop (k : string) (o : Obj) : Value := default VUndefined (o !! k).

(** Field of a record value, [payload.k]. *)
Fixpoint assoc (k : string) (fields : list (string * Value)) : Value :=
  match fields with
  | [] => VUndefined
  | (k', v) :: rest => if String.eqb k k' then v else assoc k rest
  end.

Definition field (k : string) (payload : Value) : Value :=
  match payload with VRec fields => assoc k fields | _ => VUndefined end.

(** [from<T>(obj) = obj._object], also [Page.from] and [CrxApplication.from]. *)
Definition from (obj : Value) : Value :=
  match obj with VChannel g => VObject g | _ => VUndefined end.

(** [obj._channel], the channel of a client object. *)
Definition channel_of (obj : Value) : Value :=
  match obj with VObject g => VChannel g | _ => VUndefined end.

(** [haystack.includes(needle)] *)
Fixpoint includes (needle haystack : string) : bool :=
  String.prefix needle haystack ||
  match haystack with
  | EmptyString => false
  | String _ rest => includes needle rest
  end.

(** An event handed to the subscribers of an [EventEmitter]. *)
Inductive Emitted := Emit (name : string) (args : list Value).

(** A request sent over a channel: method name and parameters. *)
Inductive Call := Send (method : string) (params : Obj).

(** ** CrxApplication.attachAll (lines 215-222) *)

Definition attachAll_params (options : option Obj) : Obj :=
  let o := default ∅ options in
  let urlOrUrls := prop "url" o in
  let remaining := delete "url" o in
  let url :=
    if truthy urlOrUrls
    then (if is_string urlOrUrls then VArr [urlOrUrls] else urlOrUrls)
    else VUndefined in
  <["url" := url]> remaining.

Definition attachAll (options : option Obj) : Call :=
  Send "attachAll" (attachAll_params options).

(** The pages of the response, each resolved with [from<Page>]. *)
Definition attachAll_result (pages : list Value) : list Value := map from pages.

(** ** CrxApplication: event forwarding set up by the constructor
    (lines 188-201) *)

(** What reaches a session: an event of its channel, an event of the
    browsing context it owns, a call of [close()] by a client, and the
    answer of the remote host to that call. *)
Inductive SessionInput :=
| ChannelEvent (name : string) (payload : Value)
| ContextEvent (name : string)
| CloseCalled
| CloseAnswered (ok : bool).

Definition CrxApplication_on_channel (name : string) (payload : Value) : list Emitted :=
  if String.eqb name "attached" then
    [Emit "attached" [VRec [("tabId", field "tabId" payload);
                            ("page", from (field "page" payload))]]]
  else if String.eqb name "detached" then
    [Emit "detached" [field "tabId" payload]]
  else [].

Definition CrxApplication_on_context (name : string) : list Emitted :=
  if String.eqb name "close" then [Emit "close" []] else [].

(** [close()] (lines 240-242) only sends the request. *)
Definition CrxApplication_close : Call := Send "close" ∅.

Definition CrxApplication_emits (i : SessionInput) : list Emitted :=
  match i with
  | ChannelEvent name payload => CrxApplication_on_channel name payload
  | ContextEvent name => CrxApplication_on_context name
  | CloseCalled => []
  | CloseAnswered _ => []
  end.

Definition CrxApplication_sends (i : SessionInput) : list Call :=
  match i with
  | CloseCalled => [CrxApplication_close]
  | _ => []
  end.

(** ** CrxRecorder (lines 124-178) *)

Record CrxRecorder := { _hidden : bool; _mode : Value }.

Definition CrxRecorder_new : CrxRecorder := {| _hidden := true; _mode := VStr "none" |}.

Definition mode (r : CrxRecorder) : Value := _mode r.
Definition isHidden (r : CrxRecorder) : bool := _hidden r.

Inductive RecorderOp :=
| Inbound (name : string) (payload : Value)      (* event on the channel *)
| SetMode (m : Value)
| Show (options : option Obj)
| Hide
| List_ (code : string)
| Load_ (code : string)
| Run (code : string) (page : option Value).

(** The channel subscriptions of the constructor (lines 132-143). *)
Definition CrxRecorder_on (name : string) (payload : Value) (r : CrxRecorder)
  : CrxRecorder * list Emitted :=
  if String.eqb name "hide" then
    ({| _hidden := true; _mode := _mode r |}, [Emit "hide" []])
  else if String.eqb name "show" then
    ({| _hidden := false; _mode := _mode r |}, [Emit "show" []])
  else if String.eqb name "modeChanged" then
    ({| _hidden := _hidden r; _mode := field "mode" payload |},
     [Emit "modechanged" [payload]])
  else (r, []).

(** The request a command sends (lines 154-177). *)
Definition CrxRecorder_send (op : RecorderOp) : list Call :=
  match op with
  | Inbound _ _ => []
  | SetMode m => [Send "setMode" {[ "mode" := m ]}]
  | Show options => [Send "showRecorder" (default ∅ options)]
  | Hide => [Send "hideRecorder" ∅]
  | List_ code => [Send "list" {[ "code" := VStr code ]}]
  | Load_ code => [Send "load" {[ "code" := VStr code ]}]
  | Run code page =>
      [Send "run" (<["page" := default VUndefined (channel_of <$> page)]>
                     {[ "code" := VStr code ]})]
  end.

Definition is_inbound (op : RecorderOp) : bool :=
  match op with Inbound _ _ => true | _ => false end.

Definition CrxRecorder_step (op : RecorderOp) (r : CrxRecorder) : CrxRecorder :=
  match op with
  | Inbound name payload => fst (CrxRecorder_on name payload r)
  | _ => r
  end.

Definition CrxRecorder_run (ops : list RecorderOp) (r : CrxRecorder) : CrxRecorder :=
  foldl (fun r op => CrxRecorder_step op r) r ops.

(** ** Crx: the session controller (lines 30-122)

    The controller runs on one event loop.  An async method runs
    without interruption up to its next [await]; there it is suspended
    and other tasks or events take their turn.  A call of an async
    method is a task; its state is the program point it is suspended at
    together with the locals that are live there. *)

(** The two fields [_crxAppPromise] and [_incognitoCrxPromise]. *)
Inductive Slot := CrxApp | IncognitoCrx.

Definition other (s : Slot) : Slot :=
  match s with CrxApp => IncognitoCrx | IncognitoCrx => CrxApp end.

Record Crx := {
  _crxAppPromise : option nat;
  _incognitoCrxPromise : option nat
}.

Definition slot_get (s : Slot) (c : Crx) : option nat :=
  match s with
  | CrxApp => _crxAppPromise c
  | IncognitoCrx => _incognitoCrxPromise c
  end.

Definition slot_set (s : Slot) (v : option nat) (c : Crx) : Crx :=
  match s with
  | CrxApp => {| _crxAppPromise := v; _incognitoCrxPromise := _incognitoCrxPromise c |}
  | IncognitoCrx => {| _crxAppPromise := _crxAppPromise c; _incognitoCrxPromise := v |}
  end.

(** Both fields [undefined]. *)
Definition empty_slots : Crx := {| _crxAppPromise := None; _incognitoCrxPromise := None |}.

(** [options?.incognito], as a condition. *)
Definition incognito (options : option Obj) : bool :=
  match options with
  | Some o => truthy (prop "incognito" o)
  | None => false
  end.

(** The slot a call with these options is about. *)
Definition slot_of (options : option Obj) : Slot :=
  if incognito options then IncognitoCrx else CrxApp.

(** What is thrown: the error made by [start] itself (lines 79 and 84) or
    a rejection delivered by the channel, with its message. *)
Inductive JsError :=
| AlreadyStarted (s : Slot)
| RemoteError (msg : string).

Definition message (e : JsError) : string :=
  match e with
  | AlreadyStarted IncognitoCrx => "incognito crxApplication is already started"
  | AlreadyStarted CrxApp => "crxApplication is already started"
  | RemoteError msg => msg
  end.

(** [error.message && error.message.includes('already started')] *)
Definition is_already_started (e : JsError) : bool :=
  negb (String.eqb (message e) "") && includes "already started" (message e).

(** A promise returned by [_start].  Sessions are named by the identity
    of their object. *)
Inductive Settle :=
| Pending
| Fulfilled (app : nat)
| Rejected (e : JsError).

(** [p_slot] is the slot that the [onClose] callback handed to this call
    of [_start] clears. *)
Record PromiseCell := { p_slot : Slot; p_state : Settle }.

Inductive Ret := RetApp (app : nat) | RetUndefined.
Inductive Outcome := Returned (v : Ret) | Threw (e : JsError).

(** Who waits for [forceReset]: an external caller, or the recovery path
    of [start] (line 101), which then retries with its [options]. *)
Inductive Cont := KReturn | KRetry (options : option Obj).

Inductive Pc :=
| StartAwait (options : option Obj) (p : nat)          (* lines 81, 86 *)
| ProbeAwaitExisting (options : option Obj) (p : nat)  (* line 95 *)
| ProbeAwaitPages (options : option Obj) (app : nat)   (* line 97 *)
| ResetAwaitCrx (p : nat) (oldIncognito : option nat) (k : Cont)      (* line 58 *)
| ResetCloseCrx (app : nat) (oldIncognito : option nat) (k : Cont)    (* line 59 *)
| ResetAwaitIncognito (p : nat) (k : Cont)             (* line 67 *)
| ResetCloseIncognito (app : nat) (k : Cont)           (* line 68 *)
| AwaitForceReset (options : option Obj)               (* line 101 *)
| GetAwait (p : nat)                                   (* lines 118, 120 *)
| Finished (o : Outcome).

(** Requests that left for the remote host, in order. *)
Inductive Request :=
| ReqStart (params : Obj)      (* [this._channel.start(options ?? {})] *)
| ReqClose (app : nat).        (* [app.close()] *)

Record World := {
  crx : Crx;
  promises : list PromiseCell;      (* the promises made by [_start], by index *)
  onClose : list (nat * Slot);      (* [crxApp.on('close', onClose)] registrations *)
  tasks : list Pc;                  (* the calls of async methods, by index *)
  sent : list Request;
  resets : list nat                 (* history: the task of each run of [forceReset] *)
}.

Definition init : World :=
  {| crx := empty_slots;
     promises := []; onClose := []; tasks := []; sent := []; resets := [] |}.

Definition with_crx (c : Crx) (w : World) : World :=
  {| crx := c; promises := promises w; onClose := onClose w;
     tasks := tasks w; sent := sent w; resets := resets w |}.

Definition with_promises (ps : list PromiseCell) (w : World) : World :=
  {| crx := crx w; promises := ps; onClose := onClose w;
     tasks := tasks w; sent := sent w; resets := resets w |}.

Definition with_onClose (l : list (nat * Slot)) (w : World) : World :=
  {| crx := crx w; promises := promises w; onClose := l;
     tasks := tasks w; sent := sent w; resets := resets w |}.

Definition with_tasks (ts : list Pc) (w : World) : World :=
  {| crx := crx w; promises := promises w; onClose := onClose w;
     tasks := ts; sent := sent w; resets := resets w |}.

Definition send (r : Request) (w : World) : World :=
  {| crx := crx w; promises := promises w; onClose := onClose w;
     tasks := tasks w; sent := sent w ++ [r]; resets := resets w |}.

Definition note_reset (tid : nat) (w : World) : World :=
  {| crx := crx w; promises := promises w; onClose := onClose w;
     tasks := tasks w; sent := sent w; resets := resets w ++ [tid] |}.

Definition promise_state (p : nat) (w : World) : option Settle :=
  p_state <$> promises w !! p.

(** [_start] up to its [await] (line 111): the request leaves and the
    promise of the call is made. *)
Definition _start (options : option Obj) (s : Slot) (w : World) : nat * World :=
  let p := length (promises w) in
  (p, with_promises (promises w ++ [{| p_slot := s; p_state := Pending |}])
        (send (ReqStart (default ∅ options)) w)).

(** [forceReset] (lines 46-73), cut at its awaits: where the task is
    suspended next, from the second block (lines 65-72) and from the
    first (lines 56-63), and the function from its entry. *)
Definition reset_finish (k : Cont) : Pc :=
  match k with
  | KReturn => Finished (Returned RetUndefined)
  | KRetry options => AwaitForceReset options
  end.

Definition reset_incognito (oldIncognitoPromise : option nat) (k : Cont) : Pc :=
  match oldIncognitoPromise with
  | Some p => ResetAwaitIncognito p k
  | None => reset_finish k
  end.

Definition reset_crx (oldCrxPromise oldIncognitoPromise : option nat) (k : Cont) : Pc :=
  match oldCrxPromise with
  | Some p => ResetAwaitCrx p oldIncognitoPromise k
  | None => reset_incognito oldIncognitoPromise k
  end.

Definition forceReset (tid : nat) (k : Cont) (w : World) : Pc * World :=
  let oldCrxPromise := _crxAppPromise (crx w) in
  let oldIncognitoPromise := _incognitoCrxPromise (crx w) in
  (reset_crx oldCrxPromise oldIncognitoPromise k,
   with_crx empty_slots (note_reset tid w)).

(** The handler [catch (error)] of [start] (lines 88-107), up to line 95. *)
Definition start_catch (options : option Obj) (error : JsError) (w : World)
  : Pc * World :=
  if is_already_started error then
    match slot_get (slot_of options) (crx w) with
    | Some existingPromise => (ProbeAwaitExisting options existingPromise, w)
    | None => (Finished (Threw error), w)
    end
  else (Finished (Threw error), w).

(** [start] (lines 75-87) up to its first await.  The errors thrown at
    lines 79 and 84 land in the handler at once. *)
Definition start (options : option Obj) (w : World) : Pc * World :=
  if incognito options then
    match _incognitoCrxPromise (crx w) with
    | Some _ => start_catch options (AlreadyStarted IncognitoCrx) w
    | None =>
        let '(p, w) := _start options IncognitoCrx w in
        (StartAwait options p,
         with_crx {| _crxAppPromise := _crxAppPromise (crx w);
                     _incognitoCrxPromise := Some p |} w)
    end
  else
    match _crxAppPromise (crx w) with
    | Some _ => start_catch options (AlreadyStarted CrxApp) w
    | None =>
        let '(p, w) := _start options CrxApp w in
        (StartAwait options p,
         with_crx {| _crxAppPromise := Some p;
                     _incognitoCrxPromise := _incognitoCrxPromise (crx w) |} w)
    end.

(** [get] (lines 116-121) up to its await; [await undefined] yields
    [undefined]. *)
Definition get (options : option Obj) (w : World) : Pc :=
  if incognito options then
    match _incognitoCrxPromise (crx w) with
    | Some p => GetAwait p
    | None => Finished (Returned RetUndefined)
    end
  else
    match _crxAppPromise (crx w) with
    | Some p => GetAwait p
    | None => Finished (Returned RetUndefined)
    end.

(** A suspended task goes on once the promise it awaits is settled. *)
Definition resume (tid : nat) (pc : Pc) (w : World) : option (Pc * World) :=
  match pc with
  | StartAwait options p =>
      match promise_state p w with
      | Some (Fulfilled app) => Some (Finished (Returned (RetApp app)), w)
      | Some (Rejected e) => Some (start_catch options e w)
      | _ => None
      end
  | ProbeAwaitExisting options p =>
      match promise_state p w with
      | Some (Fulfilled app) => Some (ProbeAwaitPages options app, w)
      | Some (Rejected _) => Some (forceReset tid (KRetry options) w)
      | _ => None
      end
  | ResetAwaitCrx p oldIncognito k =>
      match promise_state p w with
      | Some (Fulfilled app) => Some (ResetCloseCrx app oldIncognito k, send (ReqClose app) w)
      | Some (Rejected _) => Some (reset_incognito oldIncognito k, w)
      | _ => None
      end
  | ResetAwaitIncognito p k =>
      match promise_state p w with
      | Some (Fulfilled app) => Some (ResetCloseIncognito app k, send (ReqClose app) w)
      | Some (Rejected _) => Some (reset_finish k, w)
      | _ => None
      end
  | AwaitForceReset options => Some (start options w)
  | GetAwait p =>
      match promise_state p w with
      | Some (Fulfilled app) => Some (Finished (Returned (RetApp app)), w)
      | Some (Rejected e) => Some (Finished (Threw e), w)
      | _ => None
      end
  | ProbeAwaitPages _ _ | ResetCloseCrx _ _ _ | ResetCloseIncognito _ _ | Finished _ => None
  end.

(** The answer to [channel.start] arrives and [_start] finishes (lines
    111-113): on success it subscribes [onClose] to the session's close
    event and fulfils its promise, on failure the promise is rejected. *)
Definition start_reply (p : nat) (r : nat + string) (w : World) : option World :=
  match promises w !! p with
  | Some {| p_slot := s; p_state := Pending |} =>
      match r with
      | inl app =>
          Some (with_onClose (onClose w ++ [(app, s)])
                  (with_promises (<[p := {| p_slot := s; p_state := Fulfilled app |}]> (promises w)) w))
      | inr msg =>
          Some (with_promises (<[p := {| p_slot := s; p_state := Rejected (RemoteError msg) |}]> (promises w)) w)
      end
  | _ => None
  end.

(** A session emits [close]: every [onClose] subscribed to it runs. *)
Definition emit_close (app : nat) (w : World) : World :=
  with_crx
    (foldl (fun c '(a, s) => if Nat.eqb a app then slot_set s None c else c)
           (crx w) (onClose w))
    w.

Inductive Action :=
| CallStart (options : option Obj)
| CallGet (options : option Obj)
| CallForceReset
| StartReply (p : nat) (r : nat + string)
| Resume (tid : nat)
| PagesSettled (tid : nat) (ok : bool)      (* [await context.pages()], line 97 *)
| CloseSettled (tid : nat) (ok : bool)      (* [await app.close().catch(...)] *)
| EmitClose (app : nat).

Definition spawn (r : Pc * World) : World :=
  with_tasks (tasks (snd r) ++ [fst r]) (snd r).

Definition continue (tid : nat) (r : Pc * World) : World :=
  with_tasks (<[tid := fst r]> (tasks (snd r))) (snd r).

Definition step (a : Action) (w : World) : option World :=
  match a with
  | CallStart options => Some (spawn (start options w))
  | CallGet options => Some (spawn (get options w, w))
  | CallForceReset => Some (spawn (forceReset (length (tasks w)) KReturn w))
  | StartReply p r => start_reply p r w
  | Resume tid =>
      pc ← tasks w !! tid; r ← resume tid pc w; Some (continue tid r)
  | PagesSettled tid ok =>
      match tasks w !! tid with
      | Some (ProbeAwaitPages options app) =>
          Some (continue tid
                  (if ok then (Finished (Returned (RetApp app)), w)
                   else forceReset tid (KRetry options) w))
      | _ => None
      end
  | CloseSettled tid ok =>
      match tasks w !! tid with
      | Some (ResetCloseCrx app oldIncognito k) =>
          Some (continue tid (reset_incognito oldIncognito k, w))
      | Some (ResetCloseIncognito app k) =>
          Some (continue tid (reset_finish k, w))
      | _ => None
      end
  | EmitClose app => Some (emit_close app w)
  end.

Fixpoint run (acts : list Action) (w : World) : option World :=
  match acts with
  | [] => Some w
  | a :: rest => w' ← step a w; run rest w'
  end.

(** The task an action wakes up, if any. *)
Definition wakes (a : Action) : option nat :=
  match a with
  | Resume tid | PagesSettled tid _ | CloseSettled tid _ => Some tid
  | _ => None
  end.

Definition concerns (tid : nat) (a : Action) : bool :=
  match wakes a with Some t => Nat.eqb t tid | None => false end.

(** ** Schedules of a call that runs undisturbed

    The actions that carry one task through [forceReset], given what the
    two slots held when it was entered; [ok] is the answer the remote
    host gives to [close()]. *)

Definition is_settled (old : option nat) (w : World) : bool :=
  match old with
  | None => true
  | Some p =>
      match promise_state p w with
      | Some (Fulfilled _) | Some (Rejected _) => true
      | _ => false
      end
  end.

Definition close_script (tid : nat) (old : option nat) (ok : bool) (w : World)
  : list Action :=
  match old with
  | None => []
  | Some p =>
      match promise_state p w with
      | Some (Fulfilled _) => [Resume tid; CloseSettled tid ok]
      | _ => [Resume tid]
      end
  end.

(** The close request for the session a slot held, if it held one. *)
Definition held (old : option nat) (w : World) : list Request :=
  match old with
  | Some p =>
      match promise_state p w with
      | Some (Fulfilled app) => [ReqClose app]
      | _ => []
      end
  | None => []
  end.

Definition reset_script (tid : nat) (ok1 ok2 : bool) (w : World) : list Action :=
  close_script tid (_crxAppPromise (crx w)) ok1 w
  ++ close_script tid (_incognitoCrxPromise (crx w)) ok2 w.

(** The failing probe of the promise [p]: awaiting it throws, or it
    yields a session whose [context.pages()] throws. *)
Definition failing_probe (tid : nat) (p : nat) (w : World) : list Action :=
  Resume tid ::
  match promise_state p w with
  | Some (Fulfilled _) => [PagesSettled tid false]
  | _ => []
  end.

(** [w1] differs from [w0] in the state of task [tid] and the requests
    [reqs] sent since. *)
Definition frame (tid : nat) (reqs : list Request) (w0 w1 : World) : Prop :=
  crx w1 = crx w0 ∧ promises w1 = promises w0 ∧ onClose w1 = onClose w0
  ∧ resets w1 = resets w0 ∧ sent w1 = sent w0 ++ reqs
  ∧ length (tasks w1) = length (tasks w0)
  ∧ ∀ t, t ≠ tid → tasks w1 !! t = tasks w0 !! t.

(** How often task [tid] ran [forceReset]. *)
Definition resets_of (tid : nat) (w : World) : nat :=
  length (filter (λ t, t = tid) (resets w)).

(** The program points of an external call of [forceReset], and its
    normal end. *)
Definition in_forceReset (pc : Pc) : Prop :=
  match pc with
  | ResetAwaitCrx _ _ KReturn | ResetCloseCrx _ _ KReturn
  | ResetAwaitIncognito _ KReturn | ResetCloseIncognito _ KReturn
  | Finished (Returned RetUndefined) => True
  | _ => False
  end.

(** A schedule in which the remote host refuses the retried start with
    its own "already started": the first call starts session 7; the
    second call probes it, the probe fails, the call resets and retries,
    and the refusal sends it through the recovery path once more. *)
Definition refused_retry : list Action :=
  [ CallStart None; StartReply 0 (inl 7); Resume 0;
    CallStart None; Resume 1; PagesSettled 1 false;
    Resume 1; CloseSettled 1 false;
    Resume 1; StartReply 1 (inr "crxApplication is already started"); Resume 1;
    Resume 1 ].

(** ** The sessions the remote host hands out

    The session object of a successful answer to a start request. *)
Definition session_of (a : Action) : option nat :=
  match a with
  | StartReply _ (inl app) => Some app
  | _ => None
  end.

Definition started_sessions (acts : list Action) : list nat := omap session_of acts.

#[global] Instance Slot_eq_dec : EqDecision Slot.
Proof. solve_decision. Defined.

(** What holds of slots, promises and close subscriptions in every
    world the controller reaches, when [ss] are the sessions handed out
    so far and no session is handed out twice. *)
Record coherent (ss : list nat) (w : World) : Prop := {
  coh_slot : ∀ s p, slot_get s (crx w) = Some p →
             ∃ c, promises w !! p = Some c ∧ p_slot c = s;
  coh_listens : ∀ p c app, promises w !! p = Some c → p_state c = Fulfilled app →
                (app, p_slot c) ∈ onClose w ∧ app ∈ ss;
  coh_owner : ∀ app s, (app, s) ∈ onClose w →
              ∃ p c, promises w !! p = Some c ∧ p_state c = Fulfilled app ∧ p_slot c = s;
  coh_unique : ∀ p q cp cq app,
               promises w !! p = Some cp → promises w !! q = Some cq →
               p_state cp = Fulfilled app → p_state cq = Fulfilled app → p = q
}.

(** The steps that neither settle a promise nor deliver a close event:
    they leave promises and subscriptions alone and keep or clear the
    slots, or they put a new pending promise into an empty slot. *)
Definition quiet_step (w w' : World) : Prop :=
  (promises w' = promises w ∧ onClose w' = onClose w
   ∧ (crx w' = crx w ∨ crx w' = empty_slots))
  ∨ (∃ s, crx w' = slot_set s (Some (length (promises w))) (crx w)
          ∧ promises w' = promises w ++ [{| p_slot := s; p_state := Pending |}]
          ∧ onClose w' = onClose w).

(** A session is discarded by [forceReset] and, while the reset still
    waits for the old session, a new one is started for the same mode:
    session 1 is started; [forceReset()] is called and clears the slot;
    [start()] is called again and takes the empty slot; the reset asks
    session 1 to close; the new start is answered with session 2; the
    close request is answered. *)
Definition superseded_session : list Action :=
  [ CallStart None; StartReply 0 (inl 1); Resume 0;
    CallForceReset; CallStart None; Resume 1;
    StartReply 1 (inl 2); Resume 2; CloseSettled 1 true ].

(** The world a schedule leads to from the initial one. *)
Definition world_after (acts : list Action) : World := default init (run acts init).

(** ** CrxApplication: the other requests (lines 211-242) *)

(** [typeof v === 'number'] *)
Definition is_number (v : Value) : bool :=
  match v with VNum _ => true | _ => false end.

(** The property read [v._channel]: it throws on [undefined] ([None]),
    yields the channel of a client object, the field of a record, and
    [undefined] on the other values. *)
Definition read_channel (v : Value) : option Value :=
  match v with
  | VUndefined => None
  | VObject g => Some (VChannel g)
  | VRec fields => Some (assoc "_channel" fields)
  | VBool _ | VNum _ | VStr _ | VChannel _ | VArr _ => Some VUndefined
  end.

(** [attach(tabId)] (lines 211-213): the request, and the page resolved
    from the [page] of the answer. *)
Definition CrxApplication_attach (tabId : Value) : Call :=
  Send "attach" {[ "tabId" := tabId ]}.

Definition CrxApplication_attach_result (page : Value) : Value := from page.

(** [detach(tabIdOrPage)] (lines 224-230); [None] when building the
    parameters throws. *)
Definition CrxApplication_detach (tabIdOrPage : Value) : option Call :=
  if is_number tabIdOrPage then Some (Send "detach" {[ "tabId" := tabIdOrPage ]})
  else c ← read_channel tabIdOrPage; Some (Send "detach" {[ "page" := c ]}).

(** [detachAll()] (lines 232-234). *)
Definition CrxApplication_detachAll : Call := Send "detachAll" ∅.

(** [newPage(options)] (lines 236-238): the request, and the page
    resolved from the answer. *)
Definition CrxApplication_newPage (options : option Obj) : Call :=
  Send "newPage" (default ∅ options).

Definition CrxApplication_newPage_result (page : Value) : Value := from page.

(** ** CrxRecorder: the events it emits (lines 132-143) *)

Definition CrxRecorder_emits (op : RecorderOp) (r : CrxRecorder) : list Emitted :=
  match op with
  | Inbound name payload => snd (CrxRecorder_on name payload r)
  | _ => []
  end.

Fixpoint CrxRecorder_trace (ops : list RecorderOp) (r : CrxRecorder) : list Emitted :=
  match ops with
  | [] => []
  | op :: rest => CrxRecorder_emits op r ++ CrxRecorder_trace rest (CrxRecorder_step op r)
  end.

(** ** The failures the remote host reports

    The message of a failed answer to a start request. *)
Definition failure_of (a : Action) : option string :=
  match a with
  | StartReply _ (inr msg) => Some msg
  | _ => None
  end.

Definition reported_failures (acts : list Action) : list string := omap failure_of acts.

(** Every rejection stored in a promise and every error a call ended
    with is a failure among [ms]. *)
Definition failures_reported (ms : list string) (w : World) : Prop :=
  (∀ p c e, promises w !! p = Some c → p_state c = Rejected e →
            ∃ msg, e = RemoteError msg ∧ msg ∈ ms)
  ∧ (∀ t e, tasks w !! t = Some (Finished (Threw e)) →
            ∃ msg, e = RemoteError msg ∧ msg ∈ ms).

(** ** Requests and where they come from *)

(** The options a call of [start] holds on to while it is suspended. *)
Definition pc_options (pc : Pc) : option (option Obj) :=
  match pc with
  | StartAwait o _ | ProbeAwaitExisting o _ | ProbeAwaitPages o _ | AwaitForceReset o
  | ResetAwaitCrx _ _ (KRetry o) | ResetCloseCrx _ _ (KRetry o)
  | ResetAwaitIncognito _ (KRetry o) | ResetCloseIncognito _ (KRetry o) => Some o
  | _ => None
  end.

(** The options of a call of [start]. *)
Definition call_of (a : Action) : option (option Obj) :=
  match a with CallStart o => Some o | _ => None end.

Definition called_options (acts : list Action) : list (option Obj) := omap call_of acts.

Definition is_start_request (r : Request) : bool :=
  match r with ReqStart _ => true | ReqClose _ => false end.

(** With [os] the options [start] was called with and [ss] the sessions
    handed out: suspended calls hold options of [os]; start requests
    carry options of [os]; fulfilled promises and close requests name
    sessions of [ss]; and there are as many promises as start requests. *)
Definition accounted (os : list (option Obj)) (ss : list nat) (w : World) : Prop :=
  (∀ t pc o, tasks w !! t = Some pc → pc_options pc = Some o → o ∈ os)
  ∧ (∀ params, ReqStart params ∈ sent w → ∃ o, o ∈ os ∧ params = default ∅ o)
  ∧ (∀ p c app, promises w !! p = Some c → p_state c = Fulfilled app → app ∈ ss)
  ∧ (∀ app, ReqClose app ∈ sent w → app ∈ ss)
  ∧ length (filter (λ r, is_start_request r = true) (sent w)) = length (promises w).

(** * Properties *)

(** ** attachAll *)

Lemma attachAll_params_url (v : Value) (r : Obj) :
  attachAll_params (Some (<["url" := v]> r)) =
  <["url" := if truthy v then (if is_string v then VArr [v] else v) else VUndefined]>
    (delete "url" r).
Proof.
  unfold attachAll_params, prop. simpl.
  rewrite lookup_insert_eq. simpl. by rewrite delete_insert_eq.
Qed.

Lemma truthy_VStr (s : string) : s ≠ "" → truthy (VStr s) = true.
Proof. intros Hs. simpl. by apply negb_true_iff, String.eqb_neq. Qed.

(** C10, as the code has it: for a non-empty URL string the request of
    [attachAll({url: s, ...r})] is the request of
    [attachAll({url: [s], ...r})], with [url] the one-element array; and
    when the options carry no [url], or there are no options, the request
    carries the remaining options with [url] undefined. *)
Theorem attachAll_normalizes_url (s : string) (r : Obj) :
  s ≠ "" →
  attachAll (Some (<["url" := VStr s]> r)) = attachAll (Some (<["url" := VArr [VStr s]]> r))
  ∧ attachAll (Some (<["url" := VStr s]> r))
    = Send "attachAll" (<["url" := VArr [VStr s]]> (delete "url" r))
  ∧ (r !! "url" = None →
     attachAll (Some r) = Send "attachAll" (<["url" := VUndefined]> r))
  ∧ attachAll None = Send "attachAll" {[ "url" := VUndefined ]}.
Proof.
  intros Hs. unfold attachAll. rewrite !attachAll_params_url.
  rewrite (truthy_VStr s Hs). simpl. repeat split.
  intros Hr. unfold attachAll_params, prop. simpl. rewrite Hr. simpl.
  by rewrite delete_id.
Qed.

Lemma attachAll_normalizes_url_witness :
  "https://x" ≠ "" ∧
  attachAll (Some (<["url" := VStr "https://x"]> {[ "active" := VBool true ]}))
  = attachAll (Some (<["url" := VArr [VStr "https://x"]]> {[ "active" := VBool true ]})).
Proof.
  split; [discriminate |].
  apply (attachAll_normalizes_url "https://x" {[ "active" := VBool true ]}).
  discriminate.
Defined.

(** C10 as stated fails at the empty string: it is falsy, so
    [attachAll({url: ''})] sends [url] undefined, while
    [attachAll({url: ['']})] sends the array. *)
Lemma attachAll_empty_url_differs :
  ¬ (∀ (s : string) (r : Obj),
       attachAll (Some (<["url" := VStr s]> r))
       = attachAll (Some (<["url" := VArr [VStr s]]> r))).
Proof.
  intros H. specialize (H "" ∅). unfold attachAll in H.
  rewrite !attachAll_params_url in H.
  apply (f_equal (λ c, match c with Send _ m => m !! "url" end)) in H.
  rewrite !lookup_insert_eq in H. discriminate.
Qed.

(** ** The recorder state machine *)

(** An event changes the state only under one of the three subscribed
    names. *)
Lemma CrxRecorder_on_changes (name : string) (payload : Value) (r : CrxRecorder) :
  fst (CrxRecorder_on name payload r) ≠ r →
  name = "hide" ∨ name = "show" ∨ name = "modeChanged".
Proof.
  unfold CrxRecorder_on.
  destruct (String.eqb_spec name "hide"); [auto |].
  destruct (String.eqb_spec name "show"); [auto |].
  destruct (String.eqb_spec name "modeChanged"); [auto |].
  simpl. congruence.
Qed.

Lemma CrxRecorder_run_filter (ops : list RecorderOp) (r : CrxRecorder) :
  CrxRecorder_run ops r = CrxRecorder_run (filter (λ op, is_inbound op = true) ops) r.
Proof.
  unfold CrxRecorder_run. revert r.
  induction ops as [| op ops IH]; intros r; [done |].
  rewrite filter_cons. simpl. destruct op; simpl; apply IH.
Qed.

(** C9: the recorder starts hidden with mode ['none']; [hide], [show]
    and [modeChanged] events set the state; no other operation changes
    it, in particular the commands [show()], [hide()] and [setMode(m)]
    only send their request; so the state after any sequence of
    operations is the state after its inbound events alone. *)
Theorem recorder_state_follows_events :
  (isHidden CrxRecorder_new = true ∧ mode CrxRecorder_new = VStr "none")
  ∧ (∀ r payload,
       isHidden (CrxRecorder_step (Inbound "hide" payload) r) = true
       ∧ mode (CrxRecorder_step (Inbound "hide" payload) r) = mode r)
  ∧ (∀ r payload,
       isHidden (CrxRecorder_step (Inbound "show" payload) r) = false
       ∧ mode (CrxRecorder_step (Inbound "show" payload) r) = mode r)
  ∧ (∀ r payload,
       mode (CrxRecorder_step (Inbound "modeChanged" payload) r) = field "mode" payload
       ∧ isHidden (CrxRecorder_step (Inbound "modeChanged" payload) r) = isHidden r)
  ∧ (∀ op r,
       CrxRecorder_step op r ≠ r →
       ∃ payload, op = Inbound "hide" payload ∨ op = Inbound "show" payload
                  ∨ op = Inbound "modeChanged" payload)
  ∧ (∀ r m options,
       CrxRecorder_step (SetMode m) r = r
       ∧ CrxRecorder_send (SetMode m) = [Send "setMode" {[ "mode" := m ]}]
       ∧ CrxRecorder_step (Show options) r = r
       ∧ CrxRecorder_send (Show options) = [Send "showRecorder" (default ∅ options)]
       ∧ CrxRecorder_step Hide r = r
       ∧ CrxRecorder_send Hide = [Send "hideRecorder" ∅])
  ∧ (∀ ops r,
       CrxRecorder_run ops r
       = CrxRecorder_run (filter (λ op, is_inbound op = true) ops) r).
Proof.
  repeat split.
  - intros op r Hne. destruct op as [name payload | | | | | |]; try done.
    exists payload. simpl in Hne.
    apply CrxRecorder_on_changes in Hne as [-> | [-> | ->]]; auto.
  - apply CrxRecorder_run_filter.
Qed.

(** A round trip: [hide()] called on a visible recorder leaves it
    visible until the [hide] event comes back. *)
Example recorder_hide_round_trip :
  let visible := CrxRecorder_run [Inbound "show" VUndefined] CrxRecorder_new in
  isHidden visible = false
  ∧ isHidden (CrxRecorder_run [Hide] visible) = false
  ∧ isHidden (CrxRecorder_run [Hide; Inbound "hide" VUndefined] visible) = true.
Proof. done. Qed.

(** ** Event forwarding of the session *)

(** C8, as the code has it: an [attached] event of the channel is
    re-emitted with the record of its [tabId] and the page object behind
    its [page] channel; a [detached] event is re-emitted with the bare
    [tabId] of its payload as the argument; no other event of the
    channel is re-emitted; [close] is emitted exactly on the [close]
    event of the owned context, and neither a call of [close()] nor its
    answer emits anything. *)
Theorem session_forwards_events :
  (∀ payload,
     CrxApplication_emits (ChannelEvent "attached" payload)
     = [Emit "attached" [VRec [("tabId", field "tabId" payload);
                               ("page", from (field "page" payload))]]])
  ∧ (∀ tabId guid,
       CrxApplication_emits
         (ChannelEvent "attached" (VRec [("page", VChannel guid); ("tabId", VNum tabId)]))
       = [Emit "attached" [VRec [("tabId", VNum tabId); ("page", VObject guid)]]])
  ∧ (∀ payload,
       CrxApplication_emits (ChannelEvent "detached" payload)
       = [Emit "detached" [field "tabId" payload]])
  ∧ (∀ tabId,
       CrxApplication_emits (ChannelEvent "detached" (VRec [("tabId", VNum tabId)]))
       = [Emit "detached" [VNum tabId]])
  ∧ (∀ name payload, name ≠ "attached" → name ≠ "detached" →
       CrxApplication_emits (ChannelEvent name payload) = [])
  ∧ (∀ i, Emit "close" [] ∈ CrxApplication_emits i ↔ i = ContextEvent "close")
  ∧ (∀ i name args, Emit name args ∈ CrxApplication_emits i → name = "close" → args = [] ∧ i = ContextEvent "close")
  ∧ CrxApplication_emits CloseCalled = []
  ∧ CrxApplication_sends CloseCalled = [Send "close" ∅]
  ∧ (∀ ok, CrxApplication_emits (CloseAnswered ok) = []).
Proof.
  assert (Hclose : ∀ i name args,
            Emit name args ∈ CrxApplication_emits i → name = "close" →
            args = [] ∧ i = ContextEvent "close").
  { intros i name args Hin ->. destruct i as [ev payload | ev | |]; simpl in Hin.
    - unfold CrxApplication_on_channel in Hin.
      destruct (String.eqb ev "attached");
        [| destruct (String.eqb ev "detached")].
      + apply list_elem_of_singleton in Hin. discriminate.
      + apply list_elem_of_singleton in Hin. discriminate.
      + by apply not_elem_of_nil in Hin.
    - unfold CrxApplication_on_context in Hin.
      destruct (String.eqb_spec ev "close") as [-> |].
      + apply list_elem_of_singleton in Hin. by injection Hin as ->.
      + by apply not_elem_of_nil in Hin.
    - by apply not_elem_of_nil in Hin.
    - by apply not_elem_of_nil in Hin. }
  split; [done |]. split; [done |]. split; [done |]. split; [done |].
  split.
  { intros name payload Ha Hd. simpl. unfold CrxApplication_on_channel.
    destruct (String.eqb_spec name "attached"); [done |].
    by destruct (String.eqb_spec name "detached"). }
  split.
  { intros i. split.
    - intros Hin. by apply (Hclose _ _ _ Hin).
    - intros ->. by apply list_elem_of_singleton. }
  split; [exact Hclose | done].
Qed.

(** C8 as stated fails for [detached]: the subscribers do not receive
    the payload [{tabId}] of the inbound event but the number in it. *)
Lemma detached_payload_not_verbatim :
  ¬ (∀ payload,
       CrxApplication_emits (ChannelEvent "detached" payload) = [Emit "detached" [payload]]).
Proof. intros H. specialize (H (VRec [("tabId", VNum 7)])). discriminate. Qed.

(** ** The controller: what a step leaves alone *)

Lemma run_app (l1 l2 : list Action) (w : World) :
  run (l1 ++ l2) w = run l1 w ≫= run l2.
Proof.
  revert w. induction l1 as [| a l1 IH]; intros w; simpl; [done |].
  destruct (step a w) as [w1 |]; simpl; [apply IH | done].
Qed.

Lemma run_app_Some (l1 l2 : list Action) (w w1 : World) (r : option World) :
  run l1 w = Some w1 → run l2 w1 = r → run (l1 ++ l2) w = r.
Proof. intros H1 H2. by rewrite run_app, H1. Qed.

Lemma filter_cons_split {A} (P : A → Prop) `{!∀ x, Decision (P x)}
    (l : list A) (a : A) (rest : list A) :
  filter P l = a :: rest →
  ∃ pre post, l = pre ++ a :: post ∧ filter P pre = [] ∧ filter P post = rest.
Proof.
  induction l as [| x l IH]; [done |].
  rewrite filter_cons. destruct (decide (P x)) as [Hx | Hx].
  - intros [= -> <-]. by exists [], l.
  - intros Hf. destruct (IH Hf) as (pre & post & -> & Hpre & Hpost).
    exists (x :: pre), post. split; [done |]. split; [| done].
    rewrite filter_cons. by destruct (decide (P x)).
Qed.

(** The synchronous pieces touch neither the task table nor, beyond
    appending, the promises. *)
Lemma forceReset_world tid k w :
  snd (forceReset tid k w)
  = with_crx empty_slots (note_reset tid w).
Proof. done. Qed.

Lemma start_catch_world options e w : snd (start_catch options e w) = w.
Proof. unfold start_catch. by repeat case_match. Qed.

Lemma start_nonempty options p w :
  slot_get (slot_of options) (crx w) = Some p →
  start options w = (ProbeAwaitExisting options p, w).
Proof.
  unfold start, start_catch, slot_of.
  destruct (incognito options); simpl; intros Hs; by rewrite Hs.
Qed.

Lemma start_empty options w :
  slot_get (slot_of options) (crx w) = None →
  start options w =
  (StartAwait options (length (promises w)),
   with_crx (slot_set (slot_of options) (Some (length (promises w))) (crx w))
     (with_promises (promises w ++ [{| p_slot := slot_of options; p_state := Pending |}])
        (send (ReqStart (default ∅ options)) w))).
Proof.
  unfold start, slot_of.
  destruct (incognito options); simpl; intros Hs; by rewrite Hs.
Qed.

Lemma get_slot options w :
  get options w
  = match slot_get (slot_of options) (crx w) with
    | Some p => GetAwait p
    | None => Finished (Returned RetUndefined)
    end.
Proof. unfold get, slot_of. by destruct (incognito options). Qed.

Lemma start_tasks options w : tasks (snd (start options w)) = tasks w.
Proof.
  destruct (slot_get (slot_of options) (crx w)) as [p |] eqn:Hs.
  - by rewrite (start_nonempty _ _ _ Hs).
  - by rewrite (start_empty _ _ Hs).
Qed.

Lemma start_promises options w :
  ∃ new, promises (snd (start options w)) = promises w ++ new.
Proof.
  destruct (slot_get (slot_of options) (crx w)) as [p |] eqn:Hs.
  - rewrite (start_nonempty _ _ _ Hs). exists []. by rewrite app_nil_r.
  - rewrite (start_empty _ _ Hs). by eexists.
Qed.

Lemma resume_tasks tid pc w r : resume tid pc w = Some r → tasks (snd r) = tasks w.
Proof.
  destruct pc; simpl; intros Hr; repeat case_match; simplify_eq; try done.
  - by rewrite start_catch_world.
  - apply start_tasks.
Qed.

Lemma resume_promises tid pc w r :
  resume tid pc w = Some r → ∃ new, promises (snd r) = promises w ++ new.
Proof.
  destruct pc; simpl; intros Hr; repeat case_match; simplify_eq;
    try (exists []; rewrite app_nil_r;
         rewrite ?start_catch_world, ?forceReset_world; done).
  apply start_promises.
Qed.

Lemma start_reply_tasks p r w w' : start_reply p r w = Some w' → tasks w' = tasks w.
Proof. unfold start_reply. intros H. repeat case_match; by simplify_eq. Qed.

(** A step changes the state of no task but the one it wakes. *)
Lemma step_task_other a w w' t pc :
  step a w = Some w' → wakes a ≠ Some t →
  tasks w !! t = Some pc → tasks w' !! t = Some pc.
Proof.
  intros Hstep Hw Ht. destruct a; simpl in *; simplify_option_eq.
  - rewrite start_tasks. by apply lookup_app_l_Some.
  - by apply lookup_app_l_Some.
  - by apply lookup_app_l_Some.
  - by rewrite (start_reply_tasks _ _ _ _ Hstep).
  - rewrite list_lookup_insert_ne by congruence.
    by erewrite resume_tasks.
  - repeat case_match; simplify_eq; simpl;
      rewrite list_lookup_insert_ne by congruence;
      rewrite ?forceReset_world; done.
  - repeat case_match; simplify_eq; simpl;
      rewrite list_lookup_insert_ne by congruence; done.
  - done.
Qed.

Lemma run_task_idle acts w w' t pc :
  run acts w = Some w' →
  filter (λ a, concerns t a = true) acts = [] →
  tasks w !! t = Some pc → tasks w' !! t = Some pc.
Proof.
  revert w. induction acts as [| a acts IH]; intros w Hrun Hf Ht; simpl in *.
  - by simplify_eq.
  - destruct (step a w) as [w1 |] eqn:Hstep; [| done]. simpl in Hrun.
    rewrite filter_cons in Hf.
    destruct (decide (concerns t a = true)) as [| Hc]; [done |].
    apply (IH w1); [done | done |].
    eapply step_task_other; [done | | done].
    intros Hw. apply Hc. unfold concerns. rewrite Hw. apply Nat.eqb_refl.
Qed.

(** A settled promise stays as it is. *)
Lemma step_promise_settled a w w' p c :
  step a w = Some w' → promises w !! p = Some c → p_state c ≠ Pending →
  promises w' !! p = Some c.
Proof.
  intros Hstep Hp Hc. destruct a; simpl in *; simplify_option_eq.
  - destruct (start_promises options w) as [new ->]. by apply lookup_app_l_Some.
  - done.
  - done.
  - unfold start_reply in Hstep. repeat case_match; simplify_eq; simpl;
      (rewrite list_lookup_insert_ne; [done | ]); intros ->; simplify_eq; done.
  - match goal with H : resume _ _ _ = Some _ |- _ =>
      destruct (resume_promises _ _ _ _ H) as [new ->] end.
    by apply lookup_app_l_Some.
  - repeat case_match; simplify_eq; simpl; rewrite ?forceReset_world; done.
  - repeat case_match; simplify_eq; simpl; done.
  - done.
Qed.

Lemma run_promise_settled acts w w' p s :
  run acts w = Some w' → promise_state p w = Some s → s ≠ Pending →
  promise_state p w' = Some s.
Proof.
  revert w. induction acts as [| a acts IH]; intros w Hrun Hp Hs; simpl in *.
  - by simplify_eq.
  - destruct (step a w) as [w1 |] eqn:Hstep; [| done]. simpl in Hrun.
    apply (IH w1); [done | | done].
    unfold promise_state in *.
    destruct (promises w !! p) as [c |] eqn:Hc; [| done]. simpl in Hp. simplify_eq.
    by rewrite (step_promise_settled _ _ _ _ _ Hstep Hc Hs).
Qed.

Lemma continue_lookup t r pc :
  tasks (snd r) !! t = Some pc → tasks (continue t r) !! t = Some (fst r).
Proof.
  intros Ht. unfold continue. simpl.
  apply list_lookup_insert_eq. by eapply lookup_lt_Some.
Qed.

Lemma step_Resume t pc w w' :
  tasks w !! t = Some pc → step (Resume t) w = Some w' →
  ∃ r, resume t pc w = Some r ∧ w' = continue t r ∧ tasks w' !! t = Some (fst r).
Proof.
  intros Ht Hstep. simpl in Hstep. rewrite Ht in Hstep. simpl in Hstep.
  destruct (resume t pc w) as [r |] eqn:Hr; [| done]. simpl in Hstep.
  simplify_eq. exists r. split; [done |]. split; [done |].
  apply (continue_lookup _ _ pc). by rewrite (resume_tasks _ _ _ _ Hr).
Qed.

Lemma spawn_lookup r : tasks (spawn r) !! length (tasks (snd r)) = Some (fst r).
Proof. unfold spawn. simpl. by rewrite lookup_app_r, Nat.sub_diag. Qed.

(** How far a task gets when the actions that concern it are the given
    ones, whatever else runs in between. *)
Lemma run_task_next acts w w' t a rest :
  run acts w = Some w' →
  filter (λ a, concerns t a = true) acts = a :: rest →
  ∃ pre post w1 w2,
    acts = pre ++ a :: post
    ∧ run pre w = Some w1 ∧ step a w1 = Some w2 ∧ run post w2 = Some w'
    ∧ filter (λ a, concerns t a = true) post = rest
    ∧ (∀ pc, tasks w !! t = Some pc → tasks w1 !! t = Some pc).
Proof.
  intros Hrun Hf.
  destruct (filter_cons_split _ _ _ _ Hf) as (pre & post & -> & Hpre & Hpost).
  rewrite run_app in Hrun.
  destruct (run pre w) as [w1 |] eqn:Hrun1; [| done]. simpl in Hrun.
  destruct (step a w1) as [w2 |] eqn:Hstep; [| done]. simpl in Hrun.
  exists pre, post, w1, w2. repeat split; try done.
  intros pc Ht. by eapply run_task_idle.
Qed.

(** ** C1: a live cached session is shared *)

(** C1: when [start] is called while the slot of its mode holds the
    promise [p], and the probe succeeds (the task is woken once [p] is
    settled and then [context.pages()] succeeds), the call returns the
    session [p] was fulfilled with, whatever other tasks and events are
    interleaved; the call itself sends no request and leaves the slots
    alone; and a caller that waits for [p] since its own fresh start
    (line 81 or 86) returns that same session. *)
Theorem start_returns_cached_session
    (w w' : World) (options : option Obj) (p app : nat) (acts : list Action) :
  slot_get (slot_of options) (crx w) = Some p →
  run (CallStart options :: acts) w = Some w' →
  filter (λ a, concerns (length (tasks w)) a = true) acts
    = [Resume (length (tasks w)); PagesSettled (length (tasks w)) true] →
  promise_state p w' = Some (Fulfilled app) →
  tasks w' !! length (tasks w) = Some (Finished (Returned (RetApp app)))
  ∧ (∃ w1, step (CallStart options) w = Some w1
           ∧ sent w1 = sent w ∧ crx w1 = crx w ∧ promises w1 = promises w)
  ∧ (∀ t o, tasks w !! t = Some (StartAwait o p) →
            filter (λ a, concerns t a = true) acts = [Resume t] →
            tasks w' !! t = Some (Finished (Returned (RetApp app)))).
Proof.
  intros Hslot Hrun Hf Hp. simpl in Hrun.
  rewrite (start_nonempty _ _ _ Hslot) in Hrun. simpl in Hrun.
  set (tid := length (tasks w)) in *.
  set (w0 := spawn (ProbeAwaitExisting options p, w)) in *.
  assert (Ht0 : tasks w0 !! tid = Some (ProbeAwaitExisting options p))
    by apply (spawn_lookup (ProbeAwaitExisting options p, w)).
  split; [| split].
  - destruct (run_task_next _ _ _ _ _ _ Hrun Hf)
      as (pre & post & w1 & w2 & -> & Hrun1 & Hstep & Hrun2 & Hf2 & Hidle).
    specialize (Hidle _ Ht0).
    destruct (step_Resume _ _ _ _ Hidle Hstep) as (r & Hr & -> & Ht2).
    destruct (run_task_next _ _ _ _ _ _ Hrun2 Hf2)
      as (mid & post' & w3 & w4 & -> & Hrun3 & Hstep' & Hrun4 & Hf4 & Hidle').
    specialize (Hidle' _ Ht2).
    simpl in Hr. destruct (promise_state p w1) as [[| app0 | e] |] eqn:Hp1;
      simplify_eq; simpl in *.
    + (* the cached promise is fulfilled *)
      rewrite Hidle' in Hstep'. simplify_eq.
      assert (Hp' : promise_state p w' = Some (Fulfilled app0)).
      { apply (run_promise_settled _ _ _ _ _ Hrun4); [| done].
        simpl. apply (run_promise_settled _ _ _ _ _ Hrun3); done. }
      rewrite Hp in Hp'. simplify_eq.
      eapply run_task_idle; [exact Hrun4 | done |].
      by apply (continue_lookup _ (_, w3) (ProbeAwaitPages options app0)).
    + (* rejected: the task is in forceReset and no probe answer is awaited *)
      rewrite Hidle' in Hstep'.
      unfold reset_crx, reset_incognito, reset_finish in Hstep'.
      repeat case_match; simplify_eq.
  - exists w0. simpl. by rewrite (start_nonempty _ _ _ Hslot).
  - intros t o Ht Hft.
    assert (Ht' : tasks w0 !! t = Some (StartAwait o p)).
    { unfold w0, spawn. simpl. by apply lookup_app_l_Some. }
    destruct (run_task_next _ _ _ _ _ _ Hrun Hft)
      as (pre & post & w1 & w2 & -> & Hrun1 & Hstep & Hrun2 & Hf2 & Hidle).
    specialize (Hidle _ Ht').
    destruct (step_Resume _ _ _ _ Hidle Hstep) as (r & Hr & -> & Ht2).
    simpl in Hr. destruct (promise_state p w1) as [[| app0 | e] |] eqn:Hp1;
      simplify_eq; simpl in *.
    + assert (Hp' : promise_state p w' = Some (Fulfilled app0)).
      { apply (run_promise_settled _ _ _ _ _ Hrun2); done. }
      rewrite Hp in Hp'. simplify_eq.
      eapply run_task_idle; [exact Hrun2 | done | done].
    + assert (Hp' : promise_state p w' = Some (Rejected e)).
      { apply (run_promise_settled _ _ _ _ _ Hrun2); [| done].
        unfold promise_state, continue. simpl. by rewrite start_catch_world. }
      rewrite Hp in Hp'. simplify_eq.
Qed.

(** ** forceReset, run to its end *)

Lemma frame_refl tid w : frame tid [] w w.
Proof. unfold frame. by rewrite app_nil_r. Qed.

Lemma frame_trans tid r1 r2 w0 w1 w2 :
  frame tid r1 w0 w1 → frame tid r2 w1 w2 → frame tid (r1 ++ r2) w0 w2.
Proof.
  intros (Hc & Hp & Ho & Hr & Hs & Hl & Ht) (Hc' & Hp' & Ho' & Hr' & Hs' & Hl' & Ht').
  unfold frame. rewrite Hc', Hp', Ho', Hr', Hs', Hl', Hs, app_assoc.
  repeat split; try done. intros t Hne. by rewrite Ht', Ht.
Qed.

Lemma frame_continue tid pc w : frame tid [] w (continue tid (pc, w)).
Proof.
  unfold frame, continue. simpl. rewrite app_nil_r, length_insert.
  repeat split; try done. intros t Hne. by rewrite list_lookup_insert_ne.
Qed.

Lemma frame_continue_send tid pc r w : frame tid [r] w (continue tid (pc, send r w)).
Proof.
  unfold frame, continue. simpl. rewrite length_insert.
  repeat split; try done. intros t Hne. by rewrite list_lookup_insert_ne.
Qed.

Lemma step_Resume_eq t pc w r :
  tasks w !! t = Some pc → resume t pc w = Some r →
  step (Resume t) w = Some (continue t r).
Proof. intros Ht Hr. simpl. rewrite Ht. simpl. by rewrite Hr. Qed.

Lemma continue_task t pc w pc0 :
  tasks w !! t = Some pc0 → tasks (continue t (pc, w)) !! t = Some pc.
Proof. intros Ht. by apply (continue_lookup t (pc, w) pc0). Qed.

Lemma continue_send_task t pc r w pc0 :
  tasks w !! t = Some pc0 → tasks (continue t (pc, send r w)) !! t = Some pc.
Proof. intros Ht. by apply (continue_lookup t (pc, send r w) pc0). Qed.

Lemma run_one a w w1 : step a w = Some w1 → run [a] w = Some w1.
Proof. intros H. simpl. by rewrite H. Qed.

Lemma run_two a b w w1 w2 :
  step a w = Some w1 → step b w1 = Some w2 → run [a; b] w = Some w2.
Proof. intros Ha Hb. simpl. rewrite Ha. simpl. by rewrite Hb. Qed.

Lemma run_three a b c w w1 w2 w3 :
  step a w = Some w1 → step b w1 = Some w2 → step c w2 = Some w3 →
  run [a; b; c] w = Some w3.
Proof. intros Ha Hb Hc. simpl. rewrite Ha. simpl. rewrite Hb. simpl. by rewrite Hc. Qed.

Lemma step_CloseSettled_crx t ok app old2 k w :
  tasks w !! t = Some (ResetCloseCrx app old2 k) →
  step (CloseSettled t ok) w = Some (continue t (reset_incognito old2 k, w)).
Proof. intros Ht. simpl. by rewrite Ht. Qed.

Lemma step_CloseSettled_incognito t ok app k w :
  tasks w !! t = Some (ResetCloseIncognito app k) →
  step (CloseSettled t ok) w = Some (continue t (reset_finish k, w)).
Proof. intros Ht. simpl. by rewrite Ht. Qed.

(** The second block of [forceReset] (lines 65-72). *)
Lemma reset_incognito_runs tid old k ok w0 :
  tasks w0 !! tid = Some (reset_incognito old k) →
  is_settled old w0 = true →
  ∃ w1, run (close_script tid old ok w0) w0 = Some w1
        ∧ tasks w1 !! tid = Some (reset_finish k)
        ∧ frame tid (held old w0) w0 w1.
Proof.
  intros Ht Hs. destruct old as [p |]; simpl in *.
  - destruct (promise_state p w0) as [[| app | e] |] eqn:Hp; try done.
    + set (w1 := continue tid (ResetCloseIncognito app k, send (ReqClose app) w0)).
      assert (Ht1 : tasks w1 !! tid = Some (ResetCloseIncognito app k))
        by (by eapply continue_send_task).
      exists (continue tid (reset_finish k, w1)). split; [| split].
      * apply (run_two _ _ _ w1).
        -- apply (step_Resume_eq _ _ _ _ Ht). simpl. by rewrite Hp.
        -- by apply (step_CloseSettled_incognito _ _ app).
      * by eapply continue_task.
      * apply (frame_trans _ [ReqClose app] [] _ w1);
          [apply frame_continue_send | apply frame_continue].
    + exists (continue tid (reset_finish k, w0)). split; [| split].
      * apply run_one, (step_Resume_eq _ _ _ _ Ht). simpl. by rewrite Hp.
      * by eapply continue_task.
      * apply frame_continue.
  - exists w0. split; [done |]. split; [done | apply frame_refl].
Qed.

(** The first block of [forceReset] (lines 56-63). *)
Lemma reset_crx_runs tid old1 old2 k ok w0 :
  tasks w0 !! tid = Some (reset_crx old1 old2 k) →
  is_settled old1 w0 = true →
  ∃ w1, run (close_script tid old1 ok w0) w0 = Some w1
        ∧ tasks w1 !! tid = Some (reset_incognito old2 k)
        ∧ frame tid (held old1 w0) w0 w1.
Proof.
  intros Ht Hs. destruct old1 as [p |]; simpl in *.
  - destruct (promise_state p w0) as [[| app | e] |] eqn:Hp; try done.
    + set (w1 := continue tid (ResetCloseCrx app old2 k, send (ReqClose app) w0)).
      assert (Ht1 : tasks w1 !! tid = Some (ResetCloseCrx app old2 k))
        by (by eapply continue_send_task).
      exists (continue tid (reset_incognito old2 k, w1)). split; [| split].
      * apply (run_two _ _ _ w1).
        -- apply (step_Resume_eq _ _ _ _ Ht). simpl. by rewrite Hp.
        -- by apply (step_CloseSettled_crx _ _ app).
      * by eapply continue_task.
      * apply (frame_trans _ [ReqClose app] [] _ w1);
          [apply frame_continue_send | apply frame_continue].
    + exists (continue tid (reset_incognito old2 k, w0)). split; [| split].
      * apply run_one, (step_Resume_eq _ _ _ _ Ht). simpl. by rewrite Hp.
      * by eapply continue_task.
      * apply frame_continue.
  - exists w0. split; [done |]. split; [done | apply frame_refl].
Qed.

Lemma frame_promises tid reqs w0 w1 : frame tid reqs w0 w1 → promises w1 = promises w0.
Proof. by intros (_ & Hp & _). Qed.

Lemma close_script_promises tid old ok w0 w1 :
  promises w1 = promises w0 → close_script tid old ok w1 = close_script tid old ok w0.
Proof.
  intros Hp. destruct old as [p |]; [| done].
  unfold close_script, promise_state. by rewrite Hp.
Qed.

Lemma held_promises old w0 w1 :
  promises w1 = promises w0 → held old w1 = held old w0.
Proof.
  intros Hp. destruct old as [p |]; [| done].
  unfold held, promise_state. by rewrite Hp.
Qed.

Lemma is_settled_promises old w0 w1 :
  promises w1 = promises w0 → is_settled old w1 = is_settled old w0.
Proof.
  intros Hp. destruct old as [p |]; [| done].
  unfold is_settled, promise_state. by rewrite Hp.
Qed.

(** Both blocks: once the promises the slots held are settled,
    [forceReset] reaches its end whatever the answers to [close()], and
    has asked each session it held to close. *)
Lemma forceReset_runs tid old1 old2 k ok1 ok2 w0 :
  tasks w0 !! tid = Some (reset_crx old1 old2 k) →
  is_settled old1 w0 = true → is_settled old2 w0 = true →
  ∃ w2, run (close_script tid old1 ok1 w0 ++ close_script tid old2 ok2 w0) w0 = Some w2
        ∧ tasks w2 !! tid = Some (reset_finish k)
        ∧ frame tid (held old1 w0 ++ held old2 w0) w0 w2.
Proof.
  intros Ht Hs1 Hs2.
  destruct (reset_crx_runs tid old1 old2 k ok1 w0 Ht Hs1) as (w1 & Hrun1 & Ht1 & Hf1).
  pose proof (frame_promises _ _ _ _ Hf1) as Hp1.
  rewrite <- (is_settled_promises _ _ _ Hp1) in Hs2.
  destruct (reset_incognito_runs tid old2 k ok2 w1 Ht1 Hs2) as (w2 & Hrun2 & Ht2 & Hf2).
  rewrite (close_script_promises _ _ _ _ _ Hp1) in Hrun2.
  rewrite (held_promises _ _ _ Hp1) in Hf2.
  exists w2. split; [| split].
  - rewrite run_app, Hrun1. done.
  - done.
  - by eapply frame_trans.
Qed.

(** ** C5: forceReset *)

Lemma in_forceReset_reset_crx old1 old2 : in_forceReset (reset_crx old1 old2 KReturn).
Proof. by destruct old1, old2. Qed.

Lemma in_forceReset_reset_incognito old : in_forceReset (reset_incognito old KReturn).
Proof. by destruct old. Qed.

Lemma step_in_forceReset a w w' t pc :
  step a w = Some w' → tasks w !! t = Some pc → in_forceReset pc →
  ∃ pc', tasks w' !! t = Some pc' ∧ in_forceReset pc'.
Proof.
  intros Hstep Ht Hpc.
  destruct (decide (wakes a = Some t)) as [Hw | Hw].
  - destruct a; simpl in Hw; simplify_eq.
    + destruct (step_Resume _ _ _ _ Ht Hstep) as (r & Hr & -> & Ht').
      exists (fst r). split; [done |].
      destruct pc as [| | | p old [|] | app old [|] | p [|] | app [|] | | | [[|] |]];
        try done; simpl in Hr; repeat case_match; simplify_eq; simpl;
        try done; apply in_forceReset_reset_incognito.
    + simpl in Hstep. rewrite Ht in Hstep.
      destruct pc; try done.
    + simpl in Hstep. rewrite Ht in Hstep.
      destruct pc as [| | | p old [|] | app old [|] | p [|] | app [|] | | | [[|] |]];
        try done; simplify_eq.
      * eexists. split; [by eapply continue_task |].
        apply in_forceReset_reset_incognito.
      * eexists. split; [by eapply continue_task | done].
  - exists pc. split; [| done]. by eapply step_task_other.
Qed.

Lemma run_in_forceReset acts w w' t pc :
  run acts w = Some w' → tasks w !! t = Some pc → in_forceReset pc →
  ∃ pc', tasks w' !! t = Some pc' ∧ in_forceReset pc'.
Proof.
  revert w pc. induction acts as [| a acts IH]; intros w pc Hrun Ht Hpc; simpl in *.
  - simplify_eq. by exists pc.
  - destruct (step a w) as [w1 |] eqn:Hstep; [| done]. simpl in Hrun.
    destruct (step_in_forceReset _ _ _ _ _ Hstep Ht Hpc) as (pc1 & Ht1 & Hpc1).
    by apply (IH w1 pc1).
Qed.

(** C5: [forceReset()] clears both slots in its first synchronous step,
    before any close request has left; however the other tasks and
    events are interleaved and whatever the old promises and the calls
    of [close()] yield, it never ends by throwing; once the promises the
    slots held are settled it ends normally, having asked exactly the
    sessions it held to close; with both slots empty it is done at once
    and changes nothing. *)
Theorem forceReset_clears_then_closes (w : World) :
  (∃ w1, step CallForceReset w = Some w1
         ∧ crx w1 = empty_slots ∧ sent w1 = sent w
         ∧ tasks w1 !! length (tasks w)
           = Some (reset_crx (_crxAppPromise (crx w)) (_incognitoCrxPromise (crx w)) KReturn))
  ∧ (∀ acts w' e, run (CallForceReset :: acts) w = Some w' →
                  tasks w' !! length (tasks w) ≠ Some (Finished (Threw e)))
  ∧ (∀ ok1 ok2,
       is_settled (_crxAppPromise (crx w)) w = true →
       is_settled (_incognitoCrxPromise (crx w)) w = true →
       ∃ w2, run (CallForceReset :: reset_script (length (tasks w)) ok1 ok2 w) w = Some w2
             ∧ tasks w2 !! length (tasks w) = Some (Finished (Returned RetUndefined))
             ∧ crx w2 = empty_slots
             ∧ sent w2 = sent w ++ held (_crxAppPromise (crx w)) w
                                ++ held (_incognitoCrxPromise (crx w)) w)
  ∧ (crx w = empty_slots →
     ∃ w1, step CallForceReset w = Some w1
           ∧ tasks w1 = tasks w ++ [Finished (Returned RetUndefined)]
           ∧ crx w1 = crx w ∧ promises w1 = promises w
           ∧ onClose w1 = onClose w ∧ sent w1 = sent w).
Proof.
  set (tid := length (tasks w)).
  set (w1 := spawn (forceReset tid KReturn w)).
  assert (Hstep : step CallForceReset w = Some w1) by done.
  assert (Ht1 : tasks w1 !! tid
                = Some (reset_crx (_crxAppPromise (crx w)) (_incognitoCrxPromise (crx w)) KReturn))
    by apply (spawn_lookup (forceReset tid KReturn w)).
  split; [| split; [| split]].
  - by exists w1.
  - intros acts w' e Hrun. simpl in Hrun. fold tid w1 in Hrun.
    destruct (run_in_forceReset _ _ _ _ _ Hrun Ht1 (in_forceReset_reset_crx _ _))
      as (pc' & -> & Hpc').
    intros [= ->]. done.
  - intros ok1 ok2 Hs1 Hs2.
    destruct (forceReset_runs tid _ _ KReturn ok1 ok2 w1 Ht1 Hs1 Hs2)
      as (w2 & Hrun & Ht2 & Hf2).
    exists w2. split; [| split; [| split]].
    + exact Hrun.
    + exact Ht2.
    + by destruct Hf2 as (-> & _).
    + destruct Hf2 as (_ & _ & _ & _ & -> & _). reflexivity.
  - intros Hempty. exists w1. split; [done |].
    unfold w1, spawn, forceReset. rewrite Hempty. simpl. done.
Qed.

(** ** The fresh start, step by step *)

Lemma slot_get_set s v c : slot_get s (slot_set s v c) = v.
Proof. by destruct s. Qed.

Lemma slot_get_set_other s v c : slot_get (other s) (slot_set s v c) = slot_get (other s) c.
Proof. by destruct s. Qed.

Lemma slot_get_empty s : slot_get s empty_slots = None.
Proof. by destruct s. Qed.

Lemma step_StartReply_pending p s r w :
  promises w !! p = Some {| p_slot := s; p_state := Pending |} →
  ∃ w', step (StartReply p r) w = Some w'
        ∧ promise_state p w'
          = Some (match r with inl app => Fulfilled app | inr msg => Rejected (RemoteError msg) end)
        ∧ onClose w' = onClose w ++ (match r with inl app => [(app, s)] | inr _ => [] end)
        ∧ tasks w' = tasks w ∧ crx w' = crx w ∧ sent w' = sent w ∧ resets w' = resets w
        ∧ length (promises w') = length (promises w).
Proof.
  intros Hp. pose proof (lookup_lt_Some _ _ _ Hp) as Hlt.
  simpl. unfold start_reply. rewrite Hp. destruct r as [app | msg].
  - eexists. split; [done |]. unfold promise_state. simpl.
    rewrite list_lookup_insert_eq by done. rewrite length_insert. done.
  - eexists. split; [done |]. unfold promise_state. simpl.
    rewrite list_lookup_insert_eq by done. rewrite length_insert, app_nil_r. done.
Qed.

Lemma step_Resume_StartAwait t options p w :
  tasks w !! t = Some (StartAwait options p) →
  ∀ s, promise_state p w = Some s →
  match s with
  | Fulfilled app =>
      step (Resume t) w = Some (continue t (Finished (Returned (RetApp app)), w))
  | Rejected e => step (Resume t) w = Some (continue t (start_catch options e w))
  | Pending => step (Resume t) w = None
  end.
Proof.
  intros Ht s Hs. simpl. rewrite Ht. simpl. rewrite Hs. by destruct s.
Qed.

(** The slot-empty path of [start] (lines 80-81, 85-86) taken in the
    world [w] by task [tid], whose new state is recorded in [w1], up to
    the answer [r] of the remote host. *)
Lemma fresh_start_answered tid options r w w1 :
  slot_get (slot_of options) (crx w) = None →
  tasks w1 !! tid = Some (fst (start options w)) →
  crx w1 = crx (snd (start options w)) → promises w1 = promises (snd (start options w)) →
  onClose w1 = onClose w → sent w1 = sent (snd (start options w)) → resets w1 = resets w →
  tasks w1 !! tid = Some (StartAwait options (length (promises w)))
  ∧ sent w1 = sent w ++ [ReqStart (default ∅ options)]
  ∧ ∃ w2, step (StartReply (length (promises w)) r) w1 = Some w2
        ∧ promise_state (length (promises w)) w2
          = Some (match r with inl app => Fulfilled app | inr msg => Rejected (RemoteError msg) end)
        ∧ onClose w2 = onClose w
                       ++ (match r with inl app => [(app, slot_of options)] | inr _ => [] end)
        ∧ tasks w2 = tasks w1
        ∧ crx w2 = slot_set (slot_of options) (Some (length (promises w))) (crx w)
        ∧ sent w2 = sent w1 ∧ resets w2 = resets w.
Proof.
  intros Hslot Ht Hc Hp Ho Hs Hr. rewrite (start_empty _ _ Hslot) in *. simpl in *.
  split; [done |]. split; [done |].
  destruct (step_StartReply_pending (length (promises w)) (slot_of options) r w1)
    as (w2 & Hstep & Hp2 & Ho2 & Ht2 & Hc2 & Hs2 & Hr2 & _).
  { rewrite Hp. by rewrite lookup_app_r, Nat.sub_diag. }
  exists w2. rewrite Ho2, Ht2, Hc2, Hs2, Hr2, Ho, Hc, Hr. done.
Qed.

(** ** C2: recovery from a dead cached session *)

Lemma slot_settled s p w :
  slot_get s (crx w) = Some p →
  is_settled (_crxAppPromise (crx w)) w = true →
  is_settled (_incognitoCrxPromise (crx w)) w = true →
  is_settled (Some p) w = true.
Proof. destruct s; simpl; intros ->; done. Qed.

Lemma step_PagesSettled t ok options app w :
  tasks w !! t = Some (ProbeAwaitPages options app) →
  step (PagesSettled t ok) w
  = Some (continue t (if ok then (Finished (Returned (RetApp app)), w)
                      else forceReset t (KRetry options) w)).
Proof. intros Ht. simpl. by rewrite Ht. Qed.

(** A failing probe leaves the task at the entry of [forceReset], both
    slots cleared, nothing sent. *)
Lemma failing_probe_resets w options p :
  slot_get (slot_of options) (crx w) = Some p →
  is_settled (Some p) w = true →
  ∃ w1, run (CallStart options :: failing_probe (length (tasks w)) p w) w = Some w1
        ∧ tasks w1 !! length (tasks w)
          = Some (reset_crx (_crxAppPromise (crx w)) (_incognitoCrxPromise (crx w))
                    (KRetry options))
        ∧ crx w1 = empty_slots ∧ promises w1 = promises w ∧ onClose w1 = onClose w
        ∧ sent w1 = sent w ∧ resets w1 = resets w ++ [length (tasks w)].
Proof.
  intros Hslot Hsp.
  set (tid := length (tasks w)).
  set (w0 := spawn (ProbeAwaitExisting options p, w)).
  assert (Hstep0 : step (CallStart options) w = Some w0).
  { simpl. by rewrite (start_nonempty _ _ _ Hslot). }
  assert (Ht0 : tasks w0 !! tid = Some (ProbeAwaitExisting options p))
    by apply (spawn_lookup (ProbeAwaitExisting options p, w)).
  unfold failing_probe. simpl in Hsp.
  destruct (promise_state p w) as [[| app | e] |] eqn:Hp; try done.
  - set (wA := continue tid (ProbeAwaitPages options app, w0)).
    assert (HtA : tasks wA !! tid = Some (ProbeAwaitPages options app))
      by (by eapply continue_task).
    exists (continue tid (forceReset tid (KRetry options) wA)).
    split; [| split].
    + change (run (CallStart options :: [Resume tid; PagesSettled tid false]) w)
        with (step (CallStart options) w ≫= run [Resume tid; PagesSettled tid false]).
      rewrite Hstep0. apply (run_two _ _ _ wA).
      * apply (step_Resume_eq _ _ _ _ Ht0). simpl.
        change (promise_state p w0) with (promise_state p w). by rewrite Hp.
      * apply (step_PagesSettled _ false _ _ _ HtA).
    + exact (continue_lookup tid (forceReset tid (KRetry options) wA) _ HtA).
    + done.
  - exists (continue tid (forceReset tid (KRetry options) w0)).
    split; [| split].
    + change (run (CallStart options :: [Resume tid]) w)
        with (step (CallStart options) w ≫= run [Resume tid]).
      rewrite Hstep0. apply run_one.
      apply (step_Resume_eq _ _ _ _ Ht0). simpl.
      change (promise_state p w0) with (promise_state p w). by rewrite Hp.
    + exact (continue_lookup tid (forceReset tid (KRetry options) w0) _ Ht0).
    + done.
Qed.

(** The retry after [forceReset] (line 102), when it finds the slot
    empty, up to the answer [r] to its start request. *)
Lemma retry_answered tid options r w :
  tasks w !! tid = Some (AwaitForceReset options) →
  slot_get (slot_of options) (crx w) = None →
  ∃ w1 w2, step (Resume tid) w = Some w1
    ∧ step (StartReply (length (promises w)) r) w1 = Some w2
    ∧ tasks w2 !! tid = Some (StartAwait options (length (promises w)))
    ∧ sent w2 = sent w ++ [ReqStart (default ∅ options)]
    ∧ promise_state (length (promises w)) w2
      = Some (match r with inl app => Fulfilled app | inr msg => Rejected (RemoteError msg) end)
    ∧ onClose w2 = onClose w
                   ++ (match r with inl app => [(app, slot_of options)] | inr _ => [] end)
    ∧ crx w2 = slot_set (slot_of options) (Some (length (promises w))) (crx w)
    ∧ resets w2 = resets w.
Proof.
  intros Ht Hslot.
  set (w1 := continue tid (start options w)).
  assert (Ht1 : tasks w1 !! tid = Some (fst (start options w))).
  { apply (continue_lookup _ _ (AwaitForceReset options)). by rewrite start_tasks. }
  destruct (fresh_start_answered tid options r w w1 Hslot Ht1)
    as (Ht1' & Hs1 & w2 & Hstep2 & Hp2 & Ho2 & Ht2 & Hc2 & Hs2 & Hr2); try done.
  - unfold w1. rewrite (start_empty _ _ Hslot). done.
  - unfold w1. rewrite (start_empty _ _ Hslot). done.
  - exists w1, w2. split; [by apply (step_Resume_eq _ _ _ _ Ht) |].
    split; [done |]. rewrite Ht2, Hs2. done.
Qed.

(** C2: when [start] finds its slot holding [p] and the probe fails (the
    await of [p] throws, or [context.pages()] throws), the call clears
    both slots before anything is sent, asks each session the slots held
    to close, whatever the answers [ok1], [ok2] to those requests, then
    sends a new start request with its original options and returns the
    session [app'] the remote host answers with; nothing is thrown. *)
Theorem start_recovers_from_dead_session
    (w : World) (options : option Obj) (p : nat) (ok1 ok2 : bool) (app' : nat) :
  slot_get (slot_of options) (crx w) = Some p →
  is_settled (_crxAppPromise (crx w)) w = true →
  is_settled (_incognitoCrxPromise (crx w)) w = true →
  ∃ w1 w2 w3,
    run (CallStart options :: failing_probe (length (tasks w)) p w) w = Some w1
    ∧ crx w1 = empty_slots ∧ sent w1 = sent w
    ∧ run (reset_script (length (tasks w)) ok1 ok2 w) w1 = Some w2
    ∧ crx w2 = empty_slots
    ∧ sent w2 = sent w ++ held (_crxAppPromise (crx w)) w
                       ++ held (_incognitoCrxPromise (crx w)) w
    ∧ run [Resume (length (tasks w)); StartReply (length (promises w)) (inl app');
           Resume (length (tasks w))] w2 = Some w3
    ∧ sent w3 = sent w2 ++ [ReqStart (default ∅ options)]
    ∧ slot_get (slot_of options) (crx w3) = Some (length (promises w))
    ∧ slot_get (other (slot_of options)) (crx w3) = None
    ∧ length (promises w) ≠ p
    ∧ promise_state (length (promises w)) w3 = Some (Fulfilled app')
    ∧ tasks w3 !! length (tasks w) = Some (Finished (Returned (RetApp app')))
    ∧ resets w3 = resets w ++ [length (tasks w)].
Proof.
  intros Hslot Hs1 Hs2.
  pose proof (slot_settled _ _ _ Hslot Hs1 Hs2) as Hsp.
  set (tid := length (tasks w)).
  destruct (failing_probe_resets w options p Hslot Hsp)
    as (w1 & Hrun1 & Ht1 & Hc1 & Hp1 & Ho1 & Hsent1 & Hr1).
  fold tid in Hrun1, Ht1, Hr1.
  rewrite <- (is_settled_promises _ _ _ Hp1) in Hs1.
  rewrite <- (is_settled_promises _ _ _ Hp1) in Hs2.
  destruct (forceReset_runs tid _ _ (KRetry options) ok1 ok2 w1 Ht1 Hs1 Hs2)
    as (w2 & Hrun2 & Ht2 & Hc2 & Hp2 & Ho2 & Hr2 & Hsent2 & Hl2 & Hother2).
  rewrite !(close_script_promises _ _ _ _ _ Hp1) in Hrun2.
  rewrite !(held_promises _ _ _ Hp1), Hsent1 in Hsent2.
  rewrite Hc1 in Hc2. rewrite Hp1 in Hp2. rewrite Hr1 in Hr2.
  assert (Hslot2 : slot_get (slot_of options) (crx w2) = None)
    by (rewrite Hc2; apply slot_get_empty).
  destruct (retry_answered tid options (inl app') w2 Ht2 Hslot2)
    as (w3 & w4 & Hstep3 & Hstep4 & Ht4 & Hsent4 & Hp4 & Ho4 & Hc4 & Hr4).
  rewrite Hp2 in *.
  pose proof (step_Resume_StartAwait _ _ _ _ Ht4 _ Hp4) as Hstep5. simpl in Hstep5.
  exists w1, w2, (continue tid (Finished (Returned (RetApp app')), w4)).
  repeat split; try done.
  - by apply (run_three _ _ _ _ w3 w4).
  - simpl. rewrite Hc4. apply slot_get_set.
  - simpl. rewrite Hc4, slot_get_set_other, Hc2. apply slot_get_empty.
  - simpl in Hsp. unfold promise_state in Hsp.
    destruct (promises w !! p) as [c |] eqn:Hc; [| done].
    apply lookup_lt_Some in Hc. lia.
  - by eapply continue_task.
  - simpl. by rewrite Hr4, Hr2.
Qed.

(** ** C3: the retry after a forced reset *)

Lemma step_Resume_rejected t options p e w :
  tasks w !! t = Some (StartAwait options p) →
  promise_state p w = Some (Rejected e) →
  step (Resume t) w = Some (continue t (start_catch options e w)).
Proof. intros Ht Hp. exact (step_Resume_StartAwait _ _ _ _ Ht _ Hp). Qed.

(** C3, as the code has it: after a forced reset the retry, when it
    finds its slot empty, sends one start request; it returns the
    session when the request succeeds and throws the failure when the
    request fails with a message that does not contain "already
    started", in both cases without another reset; a failure whose
    message contains "already started" sends the call to the probe of
    the promise it has just stored. *)
Theorem retry_ends_or_probes_again
    (w : World) (tid : nat) (options : option Obj) (r : nat + string) :
  tasks w !! tid = Some (AwaitForceReset options) →
  slot_get (slot_of options) (crx w) = None →
  ∃ w', run [Resume tid; StartReply (length (promises w)) r; Resume tid] w = Some w'
        ∧ sent w' = sent w ++ [ReqStart (default ∅ options)]
        ∧ resets w' = resets w
        ∧ tasks w' !! tid
          = Some (match r with
                  | inl app => Finished (Returned (RetApp app))
                  | inr msg =>
                      if is_already_started (RemoteError msg)
                      then ProbeAwaitExisting options (length (promises w))
                      else Finished (Threw (RemoteError msg))
                  end).
Proof.
  intros Ht Hslot.
  destruct (retry_answered tid options r w Ht Hslot)
    as (w1 & w2 & Hstep1 & Hstep2 & Ht2 & Hsent2 & Hp2 & Ho2 & Hc2 & Hr2).
  destruct r as [app | msg].
  - pose proof (step_Resume_StartAwait _ _ _ _ Ht2 _ Hp2) as Hstep3. simpl in Hstep3.
    eexists. split; [by apply (run_three _ _ _ _ w1 w2) |].
    split; [done |]. split; [done |]. by eapply continue_task.
  - pose proof (step_Resume_rejected _ _ _ _ _ Ht2 Hp2) as Hstep3.
    assert (Hfst : fst (start_catch options (RemoteError msg) w2)
                   = if is_already_started (RemoteError msg)
                     then ProbeAwaitExisting options (length (promises w))
                     else Finished (Threw (RemoteError msg))).
    { unfold start_catch.
      destruct (is_already_started (RemoteError msg)); [| done].
      by rewrite Hc2, slot_get_set. }
    exists (continue tid (start_catch options (RemoteError msg) w2)).
    split; [by apply (run_three _ _ _ _ w1 w2) |].
    rewrite <- Hfst, <- Hsent2, <- Hr2. unfold continue at 1 2. simpl.
    rewrite start_catch_world.
    split; [done |]. split; [done |].
    apply list_lookup_insert_eq. by eapply lookup_lt_Some.
Qed.

(** C3 as stated fails: the code keeps no count of its retries.  In
    [refused_retry] the second call of [start] runs [forceReset] twice. *)
Lemma start_resets_twice :
  ¬ (∀ acts w tid, run acts init = Some w → (resets_of tid w ≤ 1)%nat).
Proof.
  intros H.
  destruct (run refused_retry init) as [w |] eqn:E; [| vm_compute in E; discriminate].
  specialize (H _ _ 1 E). vm_compute in E. injection E as <-.
  vm_compute in H. lia.
Qed.

(** One refused retry: from the point after a forced reset, with both
    slots empty, the call comes back to that point through the probe
    and one more run of [forceReset]. *)
Lemma refused_retry_resets_again tid options msg w :
  is_already_started (RemoteError msg) = true →
  tasks w !! tid = Some (AwaitForceReset options) →
  crx w = empty_slots →
  ∃ acts w', run acts w = Some w'
             ∧ tasks w' !! tid = Some (AwaitForceReset options)
             ∧ crx w' = empty_slots
             ∧ resets w' = resets w ++ [tid].
Proof.
  intros Hmsg Ht Hc.
  assert (Hslot : slot_get (slot_of options) (crx w) = None)
    by (rewrite Hc; apply slot_get_empty).
  destruct (retry_answered tid options (inr msg) w Ht Hslot)
    as (w1 & w2 & Hstep1 & Hstep2 & Ht2 & Hsent2 & Hp2 & Ho2 & Hc2 & Hr2).
  set (pn := length (promises w)) in *.
  pose proof (step_Resume_rejected _ _ _ _ _ Ht2 Hp2) as Hstep3.
  assert (Hcatch : start_catch options (RemoteError msg) w2
                   = (ProbeAwaitExisting options pn, w2)).
  { unfold start_catch. by rewrite Hmsg, Hc2, slot_get_set. }
  rewrite Hcatch in Hstep3.
  set (w3 := continue tid (ProbeAwaitExisting options pn, w2)) in *.
  assert (Ht3 : tasks w3 !! tid = Some (ProbeAwaitExisting options pn))
    by (by eapply continue_task).
  set (w4 := continue tid (forceReset tid (KRetry options) w3)).
  assert (Hstep4 : step (Resume tid) w3 = Some w4).
  { apply (step_Resume_eq _ _ _ _ Ht3). simpl.
    change (promise_state pn w3) with (promise_state pn w2). by rewrite Hp2. }
  pose proof (continue_lookup tid (forceReset tid (KRetry options) w3) _ Ht3) as Ht4.
  fold w4 in Ht4. cbn [fst forceReset] in Ht4.
  assert (Hsettled : ∀ old, old = Some pn ∨ old = None → is_settled old w4 = true).
  { intros old [-> | ->]; [| done]. simpl.
    change (promise_state pn w4) with (promise_state pn w2). by rewrite Hp2. }
  destruct (forceReset_runs tid _ _ (KRetry options) true true w4 Ht4)
    as (w5 & Hrun5 & Ht5 & Hc5 & _ & _ & Hr5 & _).
  { apply Hsettled. change (crx w3) with (crx w2). rewrite Hc2, Hc.
    destruct (slot_of options); auto. }
  { apply Hsettled. change (crx w3) with (crx w2). rewrite Hc2, Hc.
    destruct (slot_of options); auto. }
  eexists ([Resume tid; StartReply pn (inr msg); Resume tid] ++ [Resume tid] ++ _), w5.
  split; [| split; [| split]].
  - apply (run_app_Some _ _ _ w3); [by apply (run_three _ _ _ _ w1 w2) |].
    apply (run_app_Some _ _ _ w4); [by apply run_one | exact Hrun5].
  - exact Ht5.
  - by rewrite Hc5.
  - rewrite Hr5. simpl. by rewrite Hr2.
Qed.

(** X9: The retries have no bound: for every [n] there is a schedule in
    which the second call of [start] runs [forceReset] [n + 1] times. *)
Lemma start_resets_unboundedly (n : nat) :
  ∃ acts w, run (take 8 refused_retry ++ acts) init = Some w
            ∧ resets_of 1 w = S n.
Proof.
  enough (∃ acts w, run (take 8 refused_retry ++ acts) init = Some w
                    ∧ tasks w !! 1 = Some (AwaitForceReset None)
                    ∧ crx w = empty_slots
                    ∧ resets_of 1 w = S n)
    as (acts & w & Hrun & _ & _ & Hn) by (by exists acts, w).
  induction n as [| n (acts & w & Hrun & Ht & Hc & Hn)].
  - exists [], (world_after (take 8 refused_retry)). by vm_compute.
  - destruct (refused_retry_resets_again 1 None "crxApplication is already started" w)
      as (acts' & w' & Hrun' & Ht' & Hc' & Hr'); [by vm_compute | done | done |].
    exists (acts ++ acts'), w'. split; [| split; [| split]]; try done.
    + rewrite app_assoc. by apply (run_app_Some _ _ _ w).
    + unfold resets_of in *. rewrite Hr', filter_app, length_app, Hn. simpl. lia.
Qed.

(** ** C4: a failed fresh start *)

(** C4, as the code has it: when the slot is empty and the remote start
    fails with a message that does not contain "already started", the
    caller gets that failure, and the slot keeps the rejected promise
    (the other slot is untouched): a later [get] of the mode throws the
    same failure, and a later [start] of the mode finds the slot taken,
    its probe fails on the rejected promise, and it clears both slots
    through [forceReset] before it retries. *)
Theorem failed_start_keeps_slot (w : World) (options : option Obj) (msg : string) :
  slot_get (slot_of options) (crx w) = None →
  is_already_started (RemoteError msg) = false →
  ∃ w1,
    run [CallStart options; StartReply (length (promises w)) (inr msg);
         Resume (length (tasks w))] w = Some w1
    ∧ tasks w1 !! length (tasks w) = Some (Finished (Threw (RemoteError msg)))
    ∧ slot_get (slot_of options) (crx w1) = Some (length (promises w))
    ∧ promise_state (length (promises w)) w1 = Some (Rejected (RemoteError msg))
    ∧ slot_get (other (slot_of options)) (crx w1)
      = slot_get (other (slot_of options)) (crx w)
    ∧ (∃ w2, run [CallGet options; Resume (length (tasks w1))] w1 = Some w2
             ∧ tasks w2 !! length (tasks w1) = Some (Finished (Threw (RemoteError msg))))
    ∧ (∃ w2, run [CallStart options; Resume (length (tasks w1))] w1 = Some w2
             ∧ tasks w2 !! length (tasks w1)
               = Some (reset_crx (_crxAppPromise (crx w1)) (_incognitoCrxPromise (crx w1))
                         (KRetry options))
             ∧ crx w2 = empty_slots ∧ sent w2 = sent w1).
Proof.
  intros Hslot Hmsg.
  set (tid := length (tasks w)). set (pnew := length (promises w)).
  set (w0 := spawn (start options w)).
  assert (Ht0 : tasks w0 !! tid = Some (fst (start options w))).
  { unfold tid. rewrite <- (start_tasks options w). apply spawn_lookup. }
  destruct (fresh_start_answered tid options (inr msg) w w0 Hslot Ht0)
    as (Ht0' & Hs0 & w1 & Hstep1 & Hp1 & Ho1 & Ht1 & Hc1 & Hs1 & Hr1); try done.
  { unfold w0. by rewrite (start_empty _ _ Hslot). }
  { unfold w0. by rewrite (start_empty _ _ Hslot). }
  fold pnew in Hstep1, Hp1, Hc1, Ht0'.
  rewrite <- Ht1 in Ht0'.
  pose proof (step_Resume_rejected _ _ _ _ _ Ht0' Hp1) as Hstep2.
  assert (Hcatch : start_catch options (RemoteError msg) w1
                   = (Finished (Threw (RemoteError msg)), w1)).
  { unfold start_catch. by rewrite Hmsg. }
  rewrite Hcatch in Hstep2.
  set (w2 := continue tid (Finished (Threw (RemoteError msg)), w1)) in *.
  assert (Hslot2 : slot_get (slot_of options) (crx w2) = Some pnew).
  { simpl. rewrite Hc1. apply slot_get_set. }
  assert (Hp2 : promise_state pnew w2 = Some (Rejected (RemoteError msg))) by done.
  exists w2. split; [| split; [| split; [| split; [| split; [| split]]]]].
  - by apply (run_three _ _ _ _ w0 w1).
  - by eapply continue_task.
  - done.
  - done.
  - simpl. rewrite Hc1. apply slot_get_set_other.
  - set (wg := spawn (get options w2, w2)).
    assert (Htg : tasks wg !! length (tasks w2) = Some (GetAwait pnew)).
    { unfold wg. rewrite get_slot, Hslot2. apply (spawn_lookup (GetAwait pnew, w2)). }
    exists (continue (length (tasks w2)) (Finished (Threw (RemoteError msg)), wg)).
    split.
    + apply (run_two _ _ _ wg); [done |].
      apply (step_Resume_eq _ _ _ _ Htg). simpl.
      change (promise_state pnew wg) with (promise_state pnew w2). by rewrite Hp2.
    + by eapply continue_task.
  - destruct (failing_probe_resets w2 options pnew Hslot2)
      as (w3 & Hrun3 & Ht3 & Hc3 & _ & _ & Hs3 & _).
    { simpl. by rewrite Hp2. }
    unfold failing_probe in Hrun3. rewrite Hp2 in Hrun3.
    by exists w3.
Qed.

(** C4 as stated fails: after a failed fresh start the slot still holds
    the rejected promise, and [get] throws instead of reporting absent. *)
Lemma failed_start_slot_not_cleared :
  ¬ (∀ (w w' : World) (options : option Obj) (msg : string),
       slot_get (slot_of options) (crx w) = None →
       run [CallStart options; StartReply (length (promises w)) (inr msg);
            Resume (length (tasks w))] w = Some w' →
       tasks w' !! length (tasks w) = Some (Finished (Threw (RemoteError msg)))
       ∧ slot_get (slot_of options) (crx w') = None
       ∧ get options w' = Finished (Returned RetUndefined)).
Proof.
  intros H.
  destruct (run [CallStart None; StartReply 0 (inr "net::ERR_FAILED"); Resume 0] init)
    as [w' |] eqn:E; [| vm_compute in E; discriminate].
  destruct (H init w' None "net::ERR_FAILED" eq_refl E) as (_ & Hslot & _).
  vm_compute in E. injection E as <-. discriminate.
Qed.

(** ** The coherence of slots, promises and close subscriptions *)

Lemma slot_get_set_ne s s' v c : s ≠ s' → slot_get s (slot_set s' v c) = slot_get s c.
Proof. by destruct s, s'. Qed.

(** A close event empties the slots subscribed to the session and no
    other. *)
Lemma emit_close_slot app s w :
  slot_get s (crx (emit_close app w))
  = if decide ((app, s) ∈ onClose w) then None else slot_get s (crx w).
Proof.
  unfold emit_close. simpl. generalize (crx w) as c.
  induction (onClose w) as [| [a s'] l IH]; intros c.
  - by rewrite decide_False by apply not_elem_of_nil.
  - cbn [foldl]. rewrite IH. destruct (Nat.eqb_spec a app) as [-> | Hne].
    + destruct (decide (s = s')) as [<- | Hs].
      * rewrite (decide_True _ _ (P := (app, s) ∈ (app, s) :: l))
          by apply list_elem_of_here.
        rewrite slot_get_set. by destruct (decide ((app, s) ∈ l)).
      * rewrite (slot_get_set_ne _ _ _ _ Hs).
        destruct (decide ((app, s) ∈ l)) as [Hin | Hin].
        -- by rewrite decide_True by (by apply list_elem_of_further).
        -- rewrite decide_False; [done |].
           rewrite elem_of_cons. intros [[= ?] | ?]; done.
    + destruct (decide ((app, s) ∈ l)) as [Hin | Hin].
      * by rewrite decide_True by (by apply list_elem_of_further).
      * rewrite decide_False; [done |].
        rewrite elem_of_cons. intros [[= ? ?] | ?]; done.
Qed.

Lemma coherent_init : coherent [] init.
Proof.
  split.
  - intros s p. by destruct s.
  - intros p c app Hp. simpl in Hp. by rewrite lookup_nil in Hp.
  - intros app s Hin. by apply not_elem_of_nil in Hin.
  - intros p q cp cq app Hp. simpl in Hp. by rewrite lookup_nil in Hp.
Qed.

Lemma coherent_quiet ss w w' : coherent ss w → quiet_step w w' → coherent ss w'.
Proof.
  intros [I1 I2 I3 I4] [(Hp & Ho & Hc) | (s & Hc & Hp & Ho)].
  - split; rewrite ?Hp, ?Ho; try done.
    intros s p. destruct Hc as [Hc | Hc]; rewrite Hc;
      [apply I1 | rewrite slot_get_empty; intros [=]].
  - split; rewrite ?Hp, ?Ho, ?Hc.
    + intros s0 p. destruct (decide (s0 = s)) as [-> | Hs].
      * rewrite slot_get_set. intros [= <-].
        exists {| p_slot := s; p_state := Pending |}. split; [| done].
        by rewrite lookup_app_r, Nat.sub_diag.
      * rewrite (slot_get_set_ne _ _ _ _ Hs). intros Hs0.
        destruct (I1 _ _ Hs0) as (c & Hc0 & Hc1). exists c.
        split; [by apply lookup_app_l_Some | done].
    + intros p c app Hl Hf. apply lookup_app_Some in Hl as [Hl | [_ Hl]].
      * by apply (I2 p).
      * apply list_lookup_singleton_Some in Hl as [_ <-]. done.
    + intros app s0 Hin. destruct (I3 _ _ Hin) as (p & c & Hl & Hf & Hs).
      exists p, c. split; [by apply lookup_app_l_Some | done].
    + intros p q cp cq app Hlp Hlq Hfp Hfq.
      apply lookup_app_Some in Hlp as [Hlp | [_ Hlp]];
        [| apply list_lookup_singleton_Some in Hlp as [_ <-]; done].
      apply lookup_app_Some in Hlq as [Hlq | [_ Hlq]];
        [| apply list_lookup_singleton_Some in Hlq as [_ <-]; done].
      by apply (I4 p q cp cq app).
Qed.

Lemma start_reply_inv p r w w' :
  start_reply p r w = Some w' →
  ∃ s, promises w !! p = Some {| p_slot := s; p_state := Pending |}
       ∧ crx w' = crx w
       ∧ promises w'
         = <[p := {| p_slot := s;
                     p_state := match r with
                                | inl app => Fulfilled app
                                | inr msg => Rejected (RemoteError msg)
                                end |}]> (promises w)
       ∧ onClose w' = onClose w ++ match r with inl app => [(app, s)] | inr _ => [] end.
Proof.
  unfold start_reply. intros H.
  destruct (promises w !! p) as [[s [| |]] |] eqn:Hp; try done.
  exists s. destruct r; simplify_eq; simpl; by rewrite ?app_nil_r.
Qed.

Lemma coherent_reply ss p r w w' :
  coherent ss w → start_reply p r w = Some w' →
  (∀ app, r = inl app → app ∉ ss) →
  coherent (ss ++ match r with inl app => [app] | inr _ => [] end) w'.
Proof.
  intros [I1 I2 I3 I4] Hr Hfresh.
  destruct (start_reply_inv _ _ _ _ Hr) as (s & Hpend & Hc & Hp & Ho).
  pose proof (lookup_lt_Some _ _ _ Hpend) as Hlt.
  split; rewrite ?Hc, ?Hp, ?Ho.
  - intros s0 q Hs0. destruct (I1 _ _ Hs0) as (c & Hl & Hcs).
    destruct (decide (q = p)) as [-> | Hne].
    + rewrite list_lookup_insert_eq by done. eexists. split; [done |].
      simplify_eq. done.
    + exists c. by rewrite list_lookup_insert_ne.
  - intros q c app Hl Hf.
    apply list_lookup_insert_Some in Hl as [(<- & <- & _) | (Hne & Hl)].
    + simpl in *. destruct r as [app0 | msg]; [| done].
      simplify_eq. split; apply elem_of_app; right; apply list_elem_of_here.
    + destruct (I2 _ _ _ Hl Hf). split; apply elem_of_app; by left.
  - intros app s0 Hin. apply elem_of_app in Hin as [Hin | Hin].
    + destruct (I3 _ _ Hin) as (q & c & Hl & Hf & Hs).
      exists q, c. split; [| done]. rewrite list_lookup_insert_ne; [done |].
      intros <-. rewrite Hpend in Hl. by simplify_eq.
    + destruct r as [app0 | msg]; [| by apply not_elem_of_nil in Hin].
      apply list_elem_of_singleton in Hin. simplify_eq.
      eexists p, _. split; [by apply list_lookup_insert_eq |]. done.
  - intros q1 q2 c1 c2 app Hl1 Hl2 Hf1 Hf2.
    apply list_lookup_insert_Some in Hl1 as [(<- & <- & _) | (Hne1 & Hl1)];
      apply list_lookup_insert_Some in Hl2 as [(<- & <- & _) | (Hne2 & Hl2)].
    + done.
    + simpl in Hf1. destruct r as [app0 | msg]; [| done]. simplify_eq.
      destruct (I2 _ _ _ Hl2 Hf2) as [_ Hin]. by destruct (Hfresh app eq_refl).
    + simpl in Hf2. destruct r as [app0 | msg]; [| done]. simplify_eq.
      destruct (I2 _ _ _ Hl1 Hf1) as [_ Hin]. by destruct (Hfresh app eq_refl).
    + by apply (I4 q1 q2 c1 c2 app).
Qed.

Lemma coherent_emit ss app w : coherent ss w → coherent ss (emit_close app w).
Proof.
  intros [I1 I2 I3 I4]. split; try done.
  intros s p. rewrite emit_close_slot.
  destruct (decide ((app, s) ∈ onClose w)); [done | apply I1].
Qed.

Lemma quiet_same w w' :
  crx w' = crx w → promises w' = promises w → onClose w' = onClose w → quiet_step w w'.
Proof. intros. left. auto. Qed.

Lemma quiet_start options w w' :
  crx w' = crx (snd (start options w)) → promises w' = promises (snd (start options w)) →
  onClose w' = onClose (snd (start options w)) → quiet_step w w'.
Proof.
  destruct (slot_get (slot_of options) (crx w)) as [p |] eqn:Hs.
  - rewrite (start_nonempty _ _ _ Hs). apply quiet_same.
  - rewrite (start_empty _ _ Hs). simpl. intros Hc Hp Ho.
    right. by exists (slot_of options).
Qed.

Lemma quiet_resume tid pc w r : resume tid pc w = Some r → quiet_step w (continue tid r).
Proof.
  destruct pc; simpl; intros Hr; repeat case_match; simplify_eq;
    try (by apply quiet_same);
    try (by apply quiet_same; simpl; rewrite ?start_catch_world);
    try (left; simpl; by auto).
  by apply (quiet_start options).
Qed.

Lemma step_quiet a w w' :
  step a w = Some w' →
  match a with StartReply _ _ | EmitClose _ => False | _ => True end →
  quiet_step w w'.
Proof.
  intros Hstep Ha. destruct a; try done; simpl in Hstep; simplify_option_eq.
  - by apply (quiet_start options).
  - by apply quiet_same.
  - left. simpl. auto.
  - match goal with H : resume _ _ _ = Some _ |- _ => exact (quiet_resume _ _ _ _ H) end.
  - repeat case_match; simplify_eq; [by apply quiet_same | left; simpl; auto].
  - repeat case_match; simplify_eq; by apply quiet_same.
Qed.

Lemma step_coherent ss a w w' :
  coherent ss w → step a w = Some w' →
  (∀ app, session_of a = Some app → app ∉ ss) →
  coherent (ss ++ option_list (session_of a)) w'.
Proof.
  intros Hcoh Hstep Hfresh. destruct a as [| | | p r | | | | app];
    try (simpl; rewrite app_nil_r; eapply coherent_quiet;
         [exact Hcoh | by eapply step_quiet]).
  - simpl in Hstep.
    replace (option_list (session_of (StartReply p r)))
      with (match r with inl app => [app] | inr _ => [] end) by (by destruct r).
    apply (coherent_reply _ p r w); [done | done |].
    intros app ->. by apply Hfresh.
  - simpl in *. simplify_eq. rewrite app_nil_r. by apply coherent_emit.
Qed.

Lemma run_coherent acts ss w w' :
  coherent ss w → run acts w = Some w' → NoDup (ss ++ started_sessions acts) →
  coherent (ss ++ started_sessions acts) w'.
Proof.
  revert ss w. induction acts as [| a acts IH]; intros ss w Hcoh Hrun Hnd.
  - simpl in *. simplify_eq. by rewrite app_nil_r.
  - simpl in Hrun. destruct (step a w) as [w1 |] eqn:Hstep; [| done]. simpl in Hrun.
    assert (Hsplit : started_sessions (a :: acts)
                     = option_list (session_of a) ++ started_sessions acts).
    { unfold started_sessions. simpl. by destruct (session_of a). }
    rewrite Hsplit, app_assoc in *.
    apply (IH _ w1); [| done | done].
    apply (step_coherent ss a w w1); [done | done |].
    intros app Happ Hin. rewrite Happ in Hnd. simpl in Hnd.
    apply NoDup_app in Hnd as [Hnd _].
    apply NoDup_app in Hnd as (_ & Hnd & _).
    apply (Hnd app Hin), list_elem_of_here.
Qed.

(** ** C6: the close event empties the slot *)

(** C6: in every world the controller reaches, given that the remote
    host hands out each session object once, when the slot of a mode
    holds a session and that session emits [close], the slot is empty
    afterwards, with no task involved; the slot of the other mode is as
    before; and [get] for the mode returns [undefined] at once. *)
Theorem close_event_clears_slot
    (acts : list Action) (w : World) (s : Slot) (p app : nat) :
  run acts init = Some w →
  NoDup (started_sessions acts) →
  slot_get s (crx w) = Some p →
  promise_state p w = Some (Fulfilled app) →
  ∃ w', step (EmitClose app) w = Some w'
        ∧ slot_get s (crx w') = None
        ∧ slot_get (other s) (crx w') = slot_get (other s) (crx w)
        ∧ tasks w' = tasks w ∧ sent w' = sent w
        ∧ (∀ options, slot_of options = s →
             get options w' = Finished (Returned RetUndefined)
             ∧ ∃ w'', step (CallGet options) w' = Some w''
                      ∧ tasks w'' !! length (tasks w')
                        = Some (Finished (Returned RetUndefined))).
Proof.
  intros Hrun Hnd Hslot Hp.
  pose proof (run_coherent acts [] init w coherent_init Hrun Hnd) as [I1 I2 I3 I4].
  simpl in *.
  unfold promise_state in Hp.
  destruct (promises w !! p) as [c |] eqn:Hc; [| done]. simpl in Hp.
  injection Hp as Hp.
  destruct (I1 _ _ Hslot) as (c' & Hc' & Hcs). rewrite Hc in Hc'.
  injection Hc' as <-. subst s.
  destruct (I2 _ _ _ Hc Hp) as [Hin _].
  assert (Hs' : slot_get (p_slot c) (crx (emit_close app w)) = None).
  { rewrite emit_close_slot. by rewrite decide_True. }
  exists (emit_close app w). split; [done |]. split; [done |].
  split; [| split; [done | split; [done |]]].
  - rewrite emit_close_slot. rewrite decide_False; [done |].
    intros Hin'. destruct (I3 _ _ Hin') as (q & cq & Hq & Hfq & Hsq).
    assert (q = p) as -> by (by apply (I4 q p cq c app)).
    rewrite Hc in Hq. injection Hq as <-.
    revert Hsq. by destruct (p_slot c).
  - intros options Ho. rewrite get_slot, Ho, Hs'. split; [done |].
    exists (spawn (Finished (Returned RetUndefined), emit_close app w)).
    split; [done |].
    apply (spawn_lookup (Finished (Returned RetUndefined), emit_close app w)).
Qed.

(** ** C7: a late close event of a discarded session *)

(** C7: the [onClose] callback of a session clears the slot it was
    started for whatever the slot holds by then: when a session
    [old_app] started for a mode is still subscribed and the slot of the
    mode holds another, live session [new_app], the close event of
    [old_app] empties the slot; the new session is still there and
    nothing was sent to it, but [get] for the mode returns [undefined]. *)
Theorem stale_close_clears_new_session
    (w : World) (s : Slot) (old_app new_app p_new : nat) :
  (old_app, s) ∈ onClose w →
  slot_get s (crx w) = Some p_new →
  promise_state p_new w = Some (Fulfilled new_app) →
  old_app ≠ new_app →
  ∃ w', step (EmitClose old_app) w = Some w'
        ∧ slot_get s (crx w') = None
        ∧ promise_state p_new w' = Some (Fulfilled new_app)
        ∧ sent w' = sent w
        ∧ (∀ options, slot_of options = s →
             get options w' = Finished (Returned RetUndefined)).
Proof.
  intros Hin Hslot Hp Hne.
  assert (Hs' : slot_get s (crx (emit_close old_app w)) = None).
  { rewrite emit_close_slot. by rewrite decide_True. }
  exists (emit_close old_app w). repeat split; try done.
  intros options Ho. by rewrite get_slot, Ho, Hs'.
Qed.

(** The schedule [superseded_session] leads to such a world: session 2
    sits in the slot, session 1 is still subscribed, and the close event
    of session 1 empties the slot. *)
Lemma stale_close_clears_new_session_witness :
  let w := world_after superseded_session in
  run superseded_session init = Some w
  ∧ slot_get CrxApp (crx w) = Some 1
  ∧ promise_state 1 w = Some (Fulfilled 2)
  ∧ (ReqClose 2 ∉ sent w)
  ∧ ∃ w', step (EmitClose 1) w = Some w'
          ∧ slot_get CrxApp (crx w') = None
          ∧ get None w' = Finished (Returned RetUndefined).
Proof.
  intros w.
  assert (H1 : (1, CrxApp) ∈ onClose w) by (vm_compute; apply list_elem_of_here).
  assert (H2 : slot_get CrxApp (crx w) = Some 1) by (by vm_compute).
  assert (H3 : promise_state 1 w = Some (Fulfilled 2)) by (by vm_compute).
  assert (H4 : 1 ≠ 2) by discriminate.
  destruct (stale_close_clears_new_session w CrxApp 1 2 1 H1 H2 H3 H4)
    as (w' & Hstep & Hslot & _ & _ & Hget).
  split; [by vm_compute |]. split; [exact H2 |]. split; [exact H3 |].
  split.
  { vm_compute. intros Hin. repeat (apply elem_of_cons in Hin as [Hin | Hin]; [discriminate |]).
    by apply not_elem_of_nil in Hin. }
  exists w'. split; [exact Hstep |]. split; [exact Hslot |].
  by apply Hget.
Defined.

(** ** The theorems at concrete schedules *)

(** Two callers of [start()] before the first start is answered: both
    return session 7. *)
Lemma start_returns_cached_session_witness :
  let w := world_after [CallStart None] in
  let acts := [StartReply 0 (inl 7); Resume 0; Resume 1; PagesSettled 1 true] in
  let w' := world_after (CallStart None :: CallStart None :: acts) in
  run [CallStart None] init = Some w
  ∧ run (CallStart None :: acts) w = Some w'
  ∧ tasks w' !! 1 = Some (Finished (Returned (RetApp 7)))
  ∧ tasks w' !! 0 = Some (Finished (Returned (RetApp 7)))
  ∧ sent w' = [ReqStart ∅].
Proof.
  intros w acts w'.
  assert (H1 : slot_get (slot_of None) (crx w) = Some 0) by (by vm_compute).
  assert (H2 : run (CallStart None :: acts) w = Some w') by (by vm_compute).
  assert (H3 : filter (λ a, concerns (length (tasks w)) a = true) acts
               = [Resume (length (tasks w)); PagesSettled (length (tasks w)) true])
    by (by vm_compute).
  assert (H4 : promise_state 0 w' = Some (Fulfilled 7)) by (by vm_compute).
  destruct (start_returns_cached_session w w' None 0 7 acts H1 H2 H3 H4)
    as (Hsecond & _ & Hfirst).
  split; [by vm_compute |]. split; [exact H2 |]. split; [exact Hsecond |].
  split; [| by vm_compute].
  apply (Hfirst 0 None); by vm_compute.
Defined.

(** The cached session 7 has died: the next [start()] resets, asks
    session 7 to close, and returns the new session 8. *)
Lemma start_recovers_from_dead_session_witness :
  let w := world_after [CallStart None; StartReply 0 (inl 7); Resume 0] in
  slot_get (slot_of None) (crx w) = Some 0
  ∧ ∃ w3, run (CallStart None :: failing_probe (length (tasks w)) 0 w
               ++ reset_script (length (tasks w)) false true w
               ++ [Resume (length (tasks w)); StartReply (length (promises w)) (inl 8);
                   Resume (length (tasks w))]) w = Some w3
          ∧ tasks w3 !! length (tasks w) = Some (Finished (Returned (RetApp 8)))
          ∧ sent w3 = sent w ++ [ReqClose 7; ReqStart ∅].
Proof.
  intros w.
  assert (H1 : slot_get (slot_of None) (crx w) = Some 0) by (by vm_compute).
  assert (H2 : is_settled (_crxAppPromise (crx w)) w = true) by (by vm_compute).
  assert (H3 : is_settled (_incognitoCrxPromise (crx w)) w = true) by (by vm_compute).
  destruct (start_recovers_from_dead_session w None 0 false true 8 H1 H2 H3)
    as (w1 & w2 & w3 & Hrun1 & _ & _ & Hrun2 & _ & Hsent2 & Hrun3 & Hsent3 & _ & _ & _ & _
        & Htask & _).
  split; [exact H1 |]. exists w3. split; [| split].
  - rewrite app_comm_cons. apply (run_app_Some _ _ _ w1); [exact Hrun1 |].
    apply (run_app_Some _ _ _ w2); [exact Hrun2 | exact Hrun3].
  - exact Htask.
  - rewrite Hsent3, Hsent2, <- app_assoc. f_equal.
Defined.

(** After the forced reset of the second call in [refused_retry], a
    retry that is answered with session 9 returns it. *)
Lemma retry_ends_or_probes_again_witness :
  let w := world_after (take 8 refused_retry) in
  tasks w !! 1 = Some (AwaitForceReset None)
  ∧ slot_get (slot_of None) (crx w) = None
  ∧ ∃ w', run [Resume 1; StartReply (length (promises w)) (inl 9); Resume 1] w = Some w'
          ∧ tasks w' !! 1 = Some (Finished (Returned (RetApp 9)))
          ∧ resets w' = resets w.
Proof.
  intros w.
  assert (H1 : tasks w !! 1 = Some (AwaitForceReset None)) by (by vm_compute).
  assert (H2 : slot_get (slot_of None) (crx w) = None) by (by vm_compute).
  destruct (retry_ends_or_probes_again w 1 None (inl 9) H1 H2)
    as (w' & Hrun & _ & Hresets & Htask).
  split; [exact H1 |]. split; [exact H2 |]. by exists w'.
Defined.

(** The very first [start()] fails: the failure reaches the caller and
    the slot keeps the rejected promise. *)
Lemma failed_start_keeps_slot_witness :
  slot_get (slot_of None) (crx init) = None
  ∧ is_already_started (RemoteError "net::ERR_FAILED") = false
  ∧ ∃ w1, run [CallStart None; StartReply 0 (inr "net::ERR_FAILED"); Resume 0] init = Some w1
          ∧ tasks w1 !! 0 = Some (Finished (Threw (RemoteError "net::ERR_FAILED")))
          ∧ slot_get CrxApp (crx w1) = Some 0.
Proof.
  assert (H1 : slot_get (slot_of None) (crx init) = None) by reflexivity.
  assert (H2 : is_already_started (RemoteError "net::ERR_FAILED") = false)
    by (by vm_compute).
  destruct (failed_start_keeps_slot init None "net::ERR_FAILED" H1 H2)
    as (w1 & Hrun & Htask & Hslot & _).
  split; [exact H1 |]. split; [exact H2 |]. by exists w1.
Defined.

(** Both modes started, the incognito session closes: its slot is
    empty, the other session stays. *)
Lemma close_event_clears_slot_witness :
  let incognito : option Obj := Some {[ "incognito" := VBool true ]} in
  let acts := [CallStart incognito; CallStart None;
               StartReply 0 (inl 1); StartReply 1 (inl 2); Resume 0; Resume 1] in
  let w := world_after acts in
  run acts init = Some w
  ∧ slot_get IncognitoCrx (crx w) = Some 0
  ∧ slot_get CrxApp (crx w) = Some 1
  ∧ ∃ w', step (EmitClose 1) w = Some w'
          ∧ slot_get IncognitoCrx (crx w') = None
          ∧ slot_get CrxApp (crx w') = Some 1
          ∧ get incognito w' = Finished (Returned RetUndefined).
Proof.
  intros incognito acts w.
  assert (H1 : run acts init = Some w) by (by vm_compute).
  assert (H2 : NoDup (started_sessions acts)).
  { change (started_sessions acts) with [1; 2].
    apply NoDup_cons. split; [| apply NoDup_singleton].
    intros Hin. apply list_elem_of_singleton in Hin. discriminate. }
  assert (H3 : slot_get IncognitoCrx (crx w) = Some 0) by (by vm_compute).
  assert (H4 : promise_state 0 w = Some (Fulfilled 1)) by (by vm_compute).
  destruct (close_event_clears_slot acts w IncognitoCrx 0 1 H1 H2 H3 H4)
    as (w' & Hstep & Hslot & Hother & _ & _ & Hget).
  assert (H5 : slot_get CrxApp (crx w) = Some 1) by (by vm_compute).
  split; [exact H1 |]. split; [exact H3 |]. split; [exact H5 |].
  exists w'. split; [exact Hstep |]. split; [exact Hslot |].
  split; [by rewrite <- H5 |].
  by apply (Hget incognito).
Defined.

(** [forceReset()] while session 7 is held, with a failing [close()]:
    the call ends normally, the slot is empty and session 7 was asked to
    close; and [forceReset()] in the initial world changes nothing. *)
Lemma forceReset_clears_then_closes_witness :
  let w := world_after [CallStart None; StartReply 0 (inl 7); Resume 0] in
  is_settled (_crxAppPromise (crx w)) w = true
  ∧ is_settled (_incognitoCrxPromise (crx w)) w = true
  ∧ (∃ w2, run (CallForceReset :: reset_script (length (tasks w)) false true w) w = Some w2
           ∧ tasks w2 !! length (tasks w) = Some (Finished (Returned RetUndefined))
           ∧ crx w2 = empty_slots
           ∧ sent w2 = sent w ++ [ReqClose 7])
  ∧ (∃ w1, step CallForceReset init = Some w1
           ∧ tasks w1 = [Finished (Returned RetUndefined)]
           ∧ crx w1 = empty_slots ∧ sent w1 = []).
Proof.
  intros w.
  assert (H1 : is_settled (_crxAppPromise (crx w)) w = true) by (by vm_compute).
  assert (H2 : is_settled (_incognitoCrxPromise (crx w)) w = true) by (by vm_compute).
  destruct (forceReset_clears_then_closes w) as (_ & _ & Hruns & _).
  destruct (Hruns false true H1 H2) as (w2 & Hrun & Htask & Hcrx & Hsent).
  destruct (forceReset_clears_then_closes init) as (_ & _ & _ & Hempty).
  destruct (Hempty eq_refl) as (w1 & Hstep & Htasks & Hc & _ & _ & Hs).
  split; [exact H1 |]. split; [exact H2 |]. split.
  - exists w2. split; [exact Hrun |]. split; [exact Htask |]. split; [exact Hcrx |].
    rewrite Hsent. f_equal.
  - by exists w1.
Defined.

(** A [show] event changes the state of a new recorder, and it is one
    of the three events. *)
Lemma recorder_state_follows_events_witness :
  CrxRecorder_step (Inbound "show" VUndefined) CrxRecorder_new ≠ CrxRecorder_new
  ∧ ∃ payload, Inbound "show" VUndefined = Inbound "hide" payload
               ∨ Inbound "show" VUndefined = Inbound "show" payload
               ∨ Inbound "show" VUndefined = Inbound "modeChanged" payload.
Proof.
  assert (H : CrxRecorder_step (Inbound "show" VUndefined) CrxRecorder_new ≠ CrxRecorder_new)
    by discriminate.
  destruct recorder_state_follows_events as (_ & _ & _ & _ & Hchanges & _).
  split; [exact H | exact (Hchanges _ _ H)].
Defined.

(** A [hide] event of the channel, meant for the recorder, is not
    re-emitted by the session. *)
Lemma session_forwards_events_witness :
  "hide" ≠ "attached" ∧ "hide" ≠ "detached"
  ∧ CrxApplication_emits (ChannelEvent "hide" VUndefined) = [].
Proof.
  assert (H1 : "hide" ≠ "attached") by discriminate.
  assert (H2 : "hide" ≠ "detached") by discriminate.
  destruct session_forwards_events as (_ & _ & _ & _ & Hother & _).
  split; [exact H1 |]. split; [exact H2 | exact (Hother "hide" VUndefined H1 H2)].
Defined.

(** * Further properties of the code *)

(** ** Which errors send [start] to its recovery path (line 90) *)

Lemma prefix_append (s1 s2 : string) :
  String.prefix s1 s2 = true ↔ ∃ post, s2 = s1 +:+ post.
Proof.
  revert s2. induction s1 as [| a s1 IH]; intros [| b s2]; simpl.
  - split; [by exists "" | done].
  - split; [by exists (String b s2) | done].
  - split; [done | by intros [post ?]].
  - destruct (Ascii.ascii_dec a b) as [-> | Hne].
    + rewrite IH. split; intros [post Hpost]; exists post.
      * simpl. by rewrite Hpost.
      * simpl in Hpost. by injection Hpost.
    + split; [done | intros [post [= ? ?]]; done].
Qed.

Lemma includes_substring (needle haystack : string) :
  includes needle haystack = true ↔ ∃ pre post, haystack = pre +:+ needle +:+ post.
Proof.
  induction haystack as [| a hay IH]; cbn [includes].
  - rewrite orb_false_r, prefix_append. split.
    + intros [post Hpost]. by exists "", post.
    + intros (pre & post & Heq). destruct pre; [by exists post |]. done.
  - rewrite orb_true_iff, prefix_append, IH. split.
    + intros [[post Hpost] | (pre & post & ->)].
      * by exists "", post.
      * by exists (String a pre), post.
    + intros (pre & post & Heq). destruct pre as [| b pre].
      * left. by exists post.
      * right. injection Heq as -> ->. by exists pre, post.
Qed.

(** X11: The handler of [start] takes an error for the "already started"
    condition exactly when its message has "already started" somewhere
    in it; the guard [error.message &&] in front excludes nothing more.
    This holds for the errors [start] makes itself and for any failure
    the remote host reports. *)
Theorem is_already_started_substring (e : JsError) :
  is_already_started e = true
  ↔ ∃ pre post, message e = pre +:+ "already started" +:+ post.
Proof.
  unfold is_already_started. rewrite andb_true_iff, includes_substring.
  split; [by intros [_ H] |].
  intros (pre & post & Heq). split; [| by exists pre, post].
  rewrite Heq. by destruct pre.
Qed.

(** ** The parameters [attachAll] sends (lines 215-222) *)

(** What [attachAll] makes of the [url] it is given. *)
Lemma attachAll_params_url_read (options : option Obj) :
  prop "url" (attachAll_params options)
  = let v := prop "url" (default ∅ options) in
    if truthy v then (if is_string v then VArr [v] else v) else VUndefined.
Proof. unfold attachAll_params, prop at 1. by rewrite lookup_insert_eq. Qed.

(** X12: Whatever the options, the [url] that [attachAll] sends is never a
    string (it is an array, some other value the caller gave, or
    [undefined]); every other option is sent as given; and parameters
    that went through [attachAll] once come out unchanged when they are
    passed again. *)
Theorem attachAll_params_shape (options : option Obj) :
  is_string (prop "url" (attachAll_params options)) = false
  ∧ (∀ k, k ≠ "url" → attachAll_params options !! k = default ∅ options !! k)
  ∧ attachAll_params (Some (attachAll_params options)) = attachAll_params options.
Proof.
  split; [| split].
  - rewrite attachAll_params_url_read. simpl.
    by destruct (prop "url" (default ∅ options)) as [| [|] | n | s | | | |];
      simpl; try done; destruct (negb _).
  - intros k Hk. unfold attachAll_params.
    by rewrite lookup_insert_ne, lookup_delete_ne.
  - unfold attachAll_params at 2. rewrite attachAll_params_url.
    unfold attachAll_params. rewrite delete_delete_eq. f_equal.
    generalize (prop "url" (default ∅ options)).
    intros [| [|] | n | s | | | |]; simpl; try done.
    + destruct (n =? 0)%Z eqn:E; simpl; by rewrite ?E.
    + by destruct (String.eqb s "").
Qed.

(** ** Page objects go out and come back (lines 211-238, 175-177) *)

(** X13: The page object that [attach], [newPage] or [attachAll] resolves
    from the channel in an answer leads [detach] and the recorder's
    [run] to send that very channel back; the [i]-th page of
    [attachAll] stands for the [i]-th channel of the answer. *)
Theorem page_objects_round_trip (pages : list Value) (i g : nat) (code : string) :
  pages !! i = Some (VChannel g) →
  CrxApplication_detach (CrxApplication_attach_result (VChannel g))
  = Some (Send "detach" {[ "page" := VChannel g ]})
  ∧ CrxApplication_detach (CrxApplication_newPage_result (VChannel g))
    = Some (Send "detach" {[ "page" := VChannel g ]})
  ∧ length (attachAll_result pages) = length pages
  ∧ attachAll_result pages !! i ≫= CrxApplication_detach
    = Some (Send "detach" {[ "page" := VChannel g ]})
  ∧ CrxRecorder_send (Run code (attachAll_result pages !! i))
    = [Send "run" (<["page" := VChannel g]> {[ "code" := VStr code ]})].
Proof.
  intros Hi. unfold attachAll_result.
  rewrite length_map, list_lookup_fmap, Hi. done.
Qed.

Lemma page_objects_round_trip_witness :
  [VChannel 4; VChannel 9] !! 1 = Some (VChannel 9)
  ∧ attachAll_result [VChannel 4; VChannel 9] !! 1 ≫= CrxApplication_detach
    = Some (Send "detach" {[ "page" := VChannel 9 ]}).
Proof.
  assert (H : [VChannel 4; VChannel 9] !! 1 = Some (VChannel 9)) by reflexivity.
  split; [exact H |].
  apply (page_objects_round_trip [VChannel 4; VChannel 9] 1 9 "" H).
Defined.

(** [detach] sends exactly one parameter: [tabId] when it is given a
    number, and otherwise [page] with the [_channel] of what it is
    given; given [undefined] it throws and sends nothing. *)
Theorem detach_sends_one_parameter (tabIdOrPage : Value) :
  match CrxApplication_detach tabIdOrPage with
  | Some (Send method params) =>
      method = "detach"
      ∧ (if is_number tabIdOrPage
         then params = {[ "tabId" := tabIdOrPage ]}
         else ∃ c, read_channel tabIdOrPage = Some c ∧ params = {[ "page" := c ]})
      ∧ size params = 1
  | None => tabIdOrPage = VUndefined
  end.
Proof.
  unfold CrxApplication_detach.
  destruct tabIdOrPage; simpl; try done;
    (split; [done |]; split; [by eauto | apply map_size_singleton]).
Qed.

(** ** The recorder after a sequence of operations *)

Lemma CrxRecorder_run_app (ops1 ops2 : list RecorderOp) (r : CrxRecorder) :
  CrxRecorder_run (ops1 ++ ops2) r = CrxRecorder_run ops2 (CrxRecorder_run ops1 r).
Proof. unfold CrxRecorder_run. apply foldl_app. Qed.

Lemma CrxRecorder_on_hidden (name : string) (payload : Value) (r : CrxRecorder) :
  name ≠ "hide" → name ≠ "show" →
  isHidden (fst (CrxRecorder_on name payload r)) = isHidden r.
Proof.
  intros Hh Hs. unfold CrxRecorder_on.
  destruct (String.eqb_spec name "hide"); [done |].
  destruct (String.eqb_spec name "show"); [done |].
  by destruct (String.eqb name "modeChanged").
Qed.

Lemma CrxRecorder_on_mode (name : string) (payload : Value) (r : CrxRecorder) :
  name ≠ "modeChanged" → mode (fst (CrxRecorder_on name payload r)) = mode r.
Proof.
  intros Hm. unfold CrxRecorder_on.
  destruct (String.eqb name "hide"); [done |].
  destruct (String.eqb name "show"); [done |].
  by destruct (String.eqb_spec name "modeChanged").
Qed.

(** Operations among which no [hide] and no [show] event arrives leave
    the visibility as it is. *)
Lemma CrxRecorder_run_hidden (ops : list RecorderOp) (r : CrxRecorder) :
  (∀ payload, Inbound "hide" payload ∉ ops) →
  (∀ payload, Inbound "show" payload ∉ ops) →
  isHidden (CrxRecorder_run ops r) = isHidden r.
Proof.
  revert r. induction ops as [| op ops IH]; intros r Hh Hs; [done |].
  change (CrxRecorder_run (op :: ops) r)
    with (CrxRecorder_run ops (CrxRecorder_step op r)).
  rewrite IH.
  - destruct op as [name payload | | | | | |]; try done. simpl.
    apply CrxRecorder_on_hidden; intros ->.
    + apply (Hh payload), list_elem_of_here.
    + apply (Hs payload), list_elem_of_here.
  - intros payload Hin. by apply (Hh payload), list_elem_of_further.
  - intros payload Hin. by apply (Hs payload), list_elem_of_further.
Qed.

Lemma CrxRecorder_run_mode (ops : list RecorderOp) (r : CrxRecorder) :
  (∀ payload, Inbound "modeChanged" payload ∉ ops) →
  mode (CrxRecorder_run ops r) = mode r.
Proof.
  revert r. induction ops as [| op ops IH]; intros r Hm; [done |].
  change (CrxRecorder_run (op :: ops) r)
    with (CrxRecorder_run ops (CrxRecorder_step op r)).
  rewrite IH.
  - destruct op as [name payload | | | | | |]; try done. simpl.
    apply CrxRecorder_on_mode. intros ->.
    apply (Hm payload), list_elem_of_here.
  - intros payload Hin. by apply (Hm payload), list_elem_of_further.
Qed.

(** X14: Whatever came before and whatever commands or other events come
    after, [isHidden()] is [true] after a [hide] event that no [show]
    event follows and [false] after a [show] event that no [hide] event
    follows, and [mode()] is the [mode] of the last [modeChanged] event;
    when no such event arrives the value is the one before. *)
Theorem recorder_state_is_last_event
    (before after : list RecorderOp) (payload : Value) (r : CrxRecorder) :
  ((∀ p, Inbound "show" p ∉ after) → (∀ p, Inbound "hide" p ∉ after) →
   isHidden (CrxRecorder_run (before ++ Inbound "hide" payload :: after) r) = true
   ∧ isHidden (CrxRecorder_run (before ++ Inbound "show" payload :: after) r) = false
   ∧ isHidden (CrxRecorder_run after r) = isHidden r)
  ∧ ((∀ p, Inbound "modeChanged" p ∉ after) →
     mode (CrxRecorder_run (before ++ Inbound "modeChanged" payload :: after) r)
     = field "mode" payload
     ∧ mode (CrxRecorder_run after r) = mode r).
Proof.
  split.
  - intros Hs Hh. rewrite !CrxRecorder_run_app.
    change (CrxRecorder_run (?op :: after) ?r0)
      with (CrxRecorder_run after (CrxRecorder_step op r0)).
    by rewrite !CrxRecorder_run_hidden.
  - intros Hm. rewrite !CrxRecorder_run_app.
    change (CrxRecorder_run (?op :: after) ?r0)
      with (CrxRecorder_run after (CrxRecorder_step op r0)).
    by rewrite !CrxRecorder_run_mode.
Qed.

Lemma recorder_state_is_last_event_witness :
  let after := [Hide; Inbound "modeChanged" (VRec [("mode", VStr "recording")]); SetMode (VStr "none")] in
  (∀ p, Inbound "show" p ∉ after) ∧ (∀ p, Inbound "hide" p ∉ after)
  ∧ isHidden (CrxRecorder_run ([Inbound "hide" VUndefined] ++ Inbound "show" VUndefined :: after)
                CrxRecorder_new) = false.
Proof.
  intros after.
  assert (Hs : ∀ p, Inbound "show" p ∉ after).
  { intros p Hin. repeat (apply elem_of_cons in Hin as [Hin | Hin]; [discriminate |]).
    by apply not_elem_of_nil in Hin. }
  assert (Hh : ∀ p, Inbound "hide" p ∉ after).
  { intros p Hin. repeat (apply elem_of_cons in Hin as [Hin | Hin]; [discriminate |]).
    by apply not_elem_of_nil in Hin. }
  split; [exact Hs |]. split; [exact Hh |].
  apply (recorder_state_is_last_event [Inbound "hide" VUndefined] after VUndefined
           CrxRecorder_new); assumption.
Defined.

(** ** The events the recorder emits *)

Lemma CrxRecorder_emits_iff (op : RecorderOp) (r : CrxRecorder) (name : string)
    (args : list Value) :
  Emit name args ∈ CrxRecorder_emits op r
  ↔ (∃ p, op = Inbound "hide" p ∧ name = "hide" ∧ args = [])
    ∨ (∃ p, op = Inbound "show" p ∧ name = "show" ∧ args = [])
    ∨ (∃ p, op = Inbound "modeChanged" p ∧ name = "modechanged" ∧ args = [p]).
Proof.
  destruct op as [ev payload | | | | | |]; simpl;
    try (rewrite elem_of_nil; naive_solver).
  unfold CrxRecorder_on.
  destruct (String.eqb_spec ev "hide") as [-> |];
    [| destruct (String.eqb_spec ev "show") as [-> |];
       [| destruct (String.eqb_spec ev "modeChanged") as [-> |]]]; simpl;
    rewrite ?list_elem_of_singleton, ?elem_of_nil; naive_solver.
Qed.

(** X15: The recorder emits [hide] and [show], without arguments, exactly
    when such an event arrives, and [modechanged] (in lower case), with
    the payload as it arrived, exactly when a [modeChanged] event
    arrives; it emits nothing else, whatever commands are called and
    whatever state it is in. *)
Theorem recorder_emits_per_event
    (ops : list RecorderOp) (r : CrxRecorder) (name : string) (args : list Value) :
  Emit name args ∈ CrxRecorder_trace ops r
  ↔ (name = "hide" ∧ args = [] ∧ ∃ p, Inbound "hide" p ∈ ops)
    ∨ (name = "show" ∧ args = [] ∧ ∃ p, Inbound "show" p ∈ ops)
    ∨ (name = "modechanged" ∧ ∃ p, args = [p] ∧ Inbound "modeChanged" p ∈ ops).
Proof.
  revert r. induction ops as [| op ops IH]; intros r; simpl.
  - rewrite elem_of_nil. split; [done |].
    intros [(_ & _ & p & Hin) | [(_ & _ & p & Hin) | (_ & p & _ & Hin)]];
      by apply not_elem_of_nil in Hin.
  - rewrite elem_of_app, IH, CrxRecorder_emits_iff.
    setoid_rewrite elem_of_cons. naive_solver.
Qed.

(** ** The fresh start and calls that race with it (lines 75-87, 110-114) *)

Lemma spawn_start_lookup options w :
  tasks (spawn (start options w)) !! length (tasks w) = Some (fst (start options w)).
Proof. rewrite <- (start_tasks options w). apply spawn_lookup. Qed.

(** X1: A [start] that finds its slot empty sends one start request with
    the options it was given ([{}] when there are none), puts the
    promise of that request into its slot and leaves the other slot
    alone; when the remote host answers with a session, that session is
    subscribed for the mode's close handler and returned. *)
Theorem fresh_start_returns_session (w : World) (options : option Obj) (app : nat) :
  slot_get (slot_of options) (crx w) = None →
  ∃ w',
    run [CallStart options; StartReply (length (promises w)) (inl app);
         Resume (length (tasks w))] w = Some w'
    ∧ tasks w' !! length (tasks w) = Some (Finished (Returned (RetApp app)))
    ∧ sent w' = sent w ++ [ReqStart (default ∅ options)]
    ∧ slot_get (slot_of options) (crx w') = Some (length (promises w))
    ∧ promise_state (length (promises w)) w' = Some (Fulfilled app)
    ∧ slot_get (other (slot_of options)) (crx w')
      = slot_get (other (slot_of options)) (crx w)
    ∧ onClose w' = onClose w ++ [(app, slot_of options)].
Proof.
  intros Hslot.
  set (tid := length (tasks w)). set (pnew := length (promises w)).
  set (w0 := spawn (start options w)).
  pose proof (spawn_start_lookup options w) as Ht0. fold tid w0 in Ht0.
  destruct (fresh_start_answered tid options (inl app) w w0 Hslot Ht0)
    as (Ht0' & Hs0 & w1 & Hstep1 & Hp1 & Ho1 & Ht1 & Hc1 & Hs1 & Hr1); try done.
  { unfold w0. by rewrite (start_empty _ _ Hslot). }
  { unfold w0. by rewrite (start_empty _ _ Hslot). }
  fold pnew in Hstep1, Hp1, Hc1, Ht0'. rewrite <- Ht1 in Ht0'.
  pose proof (step_Resume_StartAwait _ _ _ _ Ht0' _ Hp1) as Hstep2. simpl in Hstep2.
  exists (continue tid (Finished (Returned (RetApp app)), w1)).
  split; [by apply (run_three _ _ _ _ w0 w1) |].
  split; [by eapply continue_task |].
  split; [simpl; by rewrite Hs1 |].
  split; [simpl; rewrite Hc1; apply slot_get_set |].
  split; [done |].
  split; [simpl; rewrite Hc1; apply slot_get_set_other | done].
Qed.

Lemma fresh_start_returns_session_witness :
  let incognito : option Obj := Some {[ "incognito" := VBool true; "slowMo" := VNum 50 ]} in
  slot_get (slot_of incognito) (crx init) = None
  ∧ ∃ w', run [CallStart incognito; StartReply 0 (inl 3); Resume 0] init = Some w'
          ∧ tasks w' !! 0 = Some (Finished (Returned (RetApp 3)))
          ∧ slot_get IncognitoCrx (crx w') = Some 0
          ∧ sent w' = [ReqStart {[ "incognito" := VBool true; "slowMo" := VNum 50 ]}].
Proof.
  intros incognito.
  assert (H : slot_get (slot_of incognito) (crx init) = None) by (by vm_compute).
  destruct (fresh_start_returns_session init incognito 3 H)
    as (w' & Hrun & Htask & Hsent & Hslot & _).
  split; [exact H |]. exists w'. split; [exact Hrun |]. split; [exact Htask |].
  split; [exact Hslot | exact Hsent].
Defined.

(** X2: Two calls of [start] for the same mode, the second made before the
    first got anywhere: whatever the slot held, between them they send
    at most one start request, and afterwards the slot is taken and both
    calls wait for the promise in it. *)
Theorem racing_starts_share_one_request (w : World) (options options' : option Obj) :
  slot_of options' = slot_of options →
  ∃ w2 p,
    run [CallStart options; CallStart options'] w = Some w2
    ∧ slot_get (slot_of options) (crx w2) = Some p
    ∧ (tasks w2 !! length (tasks w) = Some (StartAwait options p)
       ∧ sent w2 = sent w ++ [ReqStart (default ∅ options)]
       ∨ tasks w2 !! length (tasks w) = Some (ProbeAwaitExisting options p)
         ∧ sent w2 = sent w)
    ∧ tasks w2 !! S (length (tasks w)) = Some (ProbeAwaitExisting options' p).
Proof.
  intros Hsame.
  set (w1 := spawn (start options w)).
  assert (Hlen : length (tasks w1) = S (length (tasks w))).
  { unfold w1, spawn. simpl. rewrite length_app, start_tasks. simpl. lia. }
  pose proof (spawn_start_lookup options w) as Ht1. fold w1 in Ht1.
  assert (∃ p, slot_get (slot_of options) (crx w1) = Some p
               ∧ (fst (start options w) = StartAwait options p
                  ∧ sent w1 = sent w ++ [ReqStart (default ∅ options)]
                  ∨ fst (start options w) = ProbeAwaitExisting options p
                    ∧ sent w1 = sent w)) as (p & Hslot1 & Hfirst).
  { unfold w1. destruct (slot_get (slot_of options) (crx w)) as [p |] eqn:Hs.
    - exists p. rewrite (start_nonempty _ _ _ Hs). auto.
    - exists (length (promises w)). rewrite (start_empty _ _ Hs). simpl.
      split; [apply slot_get_set | auto]. }
  rewrite <- Hsame in Hslot1.
  exists (spawn (start options' w1)), p.
  split; [done |].
  pose proof (spawn_start_lookup options' w1) as Ht2.
  rewrite (start_nonempty _ _ _ Hslot1) in *. rewrite Hlen in Ht2.
  split; [by rewrite <- Hsame |]. split; [| exact Ht2].
  assert (Ht1' : tasks (spawn (ProbeAwaitExisting options' p, w1)) !! length (tasks w)
                 = Some (fst (start options w))).
  { unfold spawn. simpl. by apply lookup_app_l_Some. }
  rewrite Ht1'. destruct Hfirst as [[-> Hs] | [-> Hs]]; [left | right]; done.
Qed.

Lemma racing_starts_share_one_request_witness :
  slot_of (Some {[ "slowMo" := VNum 50 ]}) = slot_of None
  ∧ ∃ w2, run [CallStart None; CallStart (Some {[ "slowMo" := VNum 50 ]})] init = Some w2
          ∧ sent w2 = [ReqStart ∅]
          ∧ tasks w2 !! 1 = Some (ProbeAwaitExisting (Some {[ "slowMo" := VNum 50 ]}) 0).
Proof.
  assert (H : slot_of (Some {[ "slowMo" := VNum 50 ]}) = slot_of None) by (by vm_compute).
  destruct (racing_starts_share_one_request init None (Some {[ "slowMo" := VNum 50 ]}) H)
    as (w2 & p & Hrun & Hslot & Hfirst & Hsecond).
  split; [exact H |]. exists w2. split; [exact Hrun |].
  assert (E : run [CallStart None; CallStart (Some {[ "slowMo" := VNum 50 ]})] init
              = Some (world_after [CallStart None; CallStart (Some {[ "slowMo" := VNum 50 ]})]))
    by (by vm_compute).
  rewrite E in Hrun. injection Hrun as <-. by vm_compute.
Defined.

(** ** get (lines 116-121) *)

(** X3: [get] for a mode whose slot holds a promise changes nothing and
    sends nothing; when it is woken it yields what that promise was
    settled with: the session, or the failure of its start, thrown
    again.  This holds whatever other tasks and events are interleaved,
    also when the slot is cleared or taken anew before [get] is woken. *)
Theorem get_yields_slot_outcome
    (w w' : World) (options : option Obj) (p : nat) (acts : list Action) :
  slot_get (slot_of options) (crx w) = Some p →
  run (CallGet options :: acts) w = Some w' →
  filter (λ a, concerns (length (tasks w)) a = true) acts = [Resume (length (tasks w))] →
  (∃ w1, step (CallGet options) w = Some w1
         ∧ crx w1 = crx w ∧ sent w1 = sent w ∧ promises w1 = promises w
         ∧ onClose w1 = onClose w)
  ∧ match promise_state p w' with
    | Some (Fulfilled app) =>
        tasks w' !! length (tasks w) = Some (Finished (Returned (RetApp app)))
    | Some (Rejected e) => tasks w' !! length (tasks w) = Some (Finished (Threw e))
    | _ => False
    end.
Proof.
  intros Hslot Hrun Hf. split; [by eexists |].
  simpl in Hrun. rewrite get_slot, Hslot in Hrun.
  set (tid := length (tasks w)) in *.
  set (w0 := spawn (GetAwait p, w)) in *.
  assert (Ht0 : tasks w0 !! tid = Some (GetAwait p))
    by apply (spawn_lookup (GetAwait p, w)).
  destruct (run_task_next _ _ _ _ _ _ Hrun Hf)
    as (pre & post & w1 & w2 & -> & Hrun1 & Hstep & Hrun2 & Hf2 & Hidle).
  specialize (Hidle _ Ht0).
  destruct (step_Resume _ _ _ _ Hidle Hstep) as (r & Hr & -> & Ht2).
  simpl in Hr. destruct (promise_state p w1) as [[| app | e] |] eqn:Hp1;
    simplify_eq; simpl in *.
  - rewrite (run_promise_settled _ _ _ p (Fulfilled app) Hrun2); [| done | done].
    by eapply run_task_idle.
  - rewrite (run_promise_settled _ _ _ p (Rejected e) Hrun2); [| done | done].
    by eapply run_task_idle.
Qed.

Lemma get_yields_slot_outcome_witness :
  let w := world_after [CallStart None] in
  let acts := [EmitClose 5; StartReply 0 (inl 5); CallForceReset; Resume 1] in
  slot_get (slot_of None) (crx w) = Some 0
  ∧ ∃ w', run (CallGet None :: acts) w = Some w'
          ∧ slot_get CrxApp (crx w') = None
          ∧ tasks w' !! 1 = Some (Finished (Returned (RetApp 5))).
Proof.
  intros w acts.
  assert (H1 : slot_get (slot_of None) (crx w) = Some 0) by (by vm_compute).
  assert (H2 : run (CallGet None :: acts) w
               = Some (world_after (CallStart None :: CallGet None :: acts)))
    by (by vm_compute).
  assert (H3 : filter (λ a, concerns (length (tasks w)) a = true) acts
               = [Resume (length (tasks w))]) by (by vm_compute).
  destruct (get_yields_slot_outcome w _ None 0 acts H1 H2 H3) as [_ Hget].
  split; [exact H1 |]. eexists. split; [exact H2 |]. split; [by vm_compute |].
  replace (promise_state 0 (world_after (CallStart None :: CallGet None :: acts)))
    with (Some (Fulfilled 5)) in Hget by (by vm_compute).
  exact Hget.
Defined.

(** ** forceReset and the calls around it (lines 46-73) *)

(** X4: [start] called right after [forceReset], without waiting for it:
    whatever the slots held and however far the reset has got with
    closing the old sessions, the call finds its slot empty, sends a new
    start request and waits for the promise of that request, which did
    not exist before the reset; it returns the session the new request
    is answered with. *)
Theorem start_after_forceReset_is_fresh
    (w w' : World) (options : option Obj) (app : nat) (acts : list Action) :
  run (CallForceReset :: CallStart options :: acts) w = Some w' →
  filter (λ a, concerns (S (length (tasks w))) a = true) acts
    = [Resume (S (length (tasks w)))] →
  promise_state (length (promises w)) w' = Some (Fulfilled app) →
  (∃ w2, run [CallForceReset; CallStart options] w = Some w2
         ∧ tasks w2 !! S (length (tasks w))
           = Some (StartAwait options (length (promises w)))
         ∧ sent w2 = sent w ++ [ReqStart (default ∅ options)]
         ∧ slot_get (slot_of options) (crx w2) = Some (length (promises w))
         ∧ promises w !! length (promises w) = None)
  ∧ tasks w' !! S (length (tasks w)) = Some (Finished (Returned (RetApp app))).
Proof.
  intros Hrun Hf Hp.
  set (tid := length (tasks w)) in *.
  set (w1 := spawn (forceReset tid KReturn w)).
  assert (Hslot1 : slot_get (slot_of options) (crx w1) = None) by apply slot_get_empty.
  assert (Hlen1 : length (tasks w1) = S tid).
  { unfold w1, spawn. simpl. rewrite length_app. simpl. lia. }
  set (w2 := spawn (start options w1)).
  pose proof (spawn_start_lookup options w1) as Ht2. fold w2 in Ht2.
  rewrite Hlen1, (start_empty _ _ Hslot1) in Ht2.
  change (length (promises w1)) with (length (promises w)) in Ht2. simpl in Ht2.
  assert (Hrun2 : run acts w2 = Some w') by exact Hrun.
  split.
  - exists w2. split; [done |]. split; [exact Ht2 |].
    unfold w2. rewrite (start_empty _ _ Hslot1). simpl.
    split; [done |]. split; [apply slot_get_set |].
    by apply lookup_ge_None.
  - destruct (run_task_next _ _ _ _ _ _ Hrun2 Hf)
      as (pre & post & w3 & w4 & -> & Hrun3 & Hstep & Hrun4 & Hf4 & Hidle).
    specialize (Hidle _ Ht2).
    destruct (step_Resume _ _ _ _ Hidle Hstep) as (r & Hr & -> & Ht4).
    simpl in Hr.
    destruct (promise_state (length (promises w)) w3) as [[| app0 | e] |] eqn:Hp3;
      simplify_eq; simpl in *.
    + assert (Hp' : promise_state (length (promises w)) w' = Some (Fulfilled app0))
        by (by apply (run_promise_settled _ _ _ _ _ Hrun4)).
      rewrite Hp in Hp'. simplify_eq. by eapply run_task_idle.
    + assert (Hp' : promise_state (length (promises w)) w' = Some (Rejected e)).
      { apply (run_promise_settled _ _ _ _ _ Hrun4); [| done].
        unfold promise_state, continue. simpl. by rewrite start_catch_world. }
      rewrite Hp in Hp'. simplify_eq.
Qed.

Lemma start_after_forceReset_is_fresh_witness :
  let w := world_after [CallStart None; StartReply 0 (inl 1); Resume 0] in
  let acts := [Resume 1; StartReply 1 (inl 2); Resume 2; CloseSettled 1 false] in
  ∃ w', run (CallForceReset :: CallStart None :: acts) w = Some w'
        ∧ promise_state (length (promises w)) w' = Some (Fulfilled 2)
        ∧ tasks w' !! 2 = Some (Finished (Returned (RetApp 2))).
Proof.
  intros w acts.
  assert (H1 : run (CallForceReset :: CallStart None :: acts) w
               = Some (world_after ([CallStart None; StartReply 0 (inl 1); Resume 0]
                                    ++ CallForceReset :: CallStart None :: acts)))
    by (by vm_compute).
  assert (H2 : filter (λ a, concerns (S (length (tasks w))) a = true) acts
               = [Resume (S (length (tasks w)))]) by (by vm_compute).
  assert (H3 : promise_state (length (promises w))
                 (world_after ([CallStart None; StartReply 0 (inl 1); Resume 0]
                               ++ CallForceReset :: CallStart None :: acts))
               = Some (Fulfilled 2)) by (by vm_compute).
  destruct (start_after_forceReset_is_fresh w _ None 2 acts H1 H2 H3) as [_ Htask].
  eexists. split; [exact H1 |]. split; [exact H3 | exact Htask].
Defined.

Lemma is_settled_run acts w w' old :
  run acts w = Some w' → is_settled old w = true → is_settled old w' = true.
Proof.
  intros Hrun. destruct old as [q |]; [| done]. simpl.
  destruct (promise_state q w) as [[| app | e] |] eqn:Hq; try done; intros _.
  - by rewrite (run_promise_settled _ _ _ q (Fulfilled app) Hrun).
  - by rewrite (run_promise_settled _ _ _ q (Rejected e) Hrun).
Qed.

(** X5: [forceReset] called while a start is still in flight: the reset
    empties the slots at once and then waits for that start; when the
    start is answered with a session, the reset asks this session to
    close and ends normally, whatever the answers to its close requests;
    the session is subscribed to the close handler of its mode all the
    same, and the caller that waits for the start still gets it. *)
Theorem forceReset_closes_session_in_flight
    (w : World) (s : Slot) (p app : nat) (ok1 ok2 : bool) :
  slot_get s (crx w) = Some p →
  promises w !! p = Some {| p_slot := s; p_state := Pending |} →
  is_settled (slot_get (other s) (crx w)) w = true →
  ∃ w1 w2,
    run [CallForceReset; StartReply p (inl app)] w = Some w1
    ∧ crx w1 = empty_slots ∧ sent w1 = sent w
    ∧ run (close_script (length (tasks w)) (_crxAppPromise (crx w)) ok1 w1
           ++ close_script (length (tasks w)) (_incognitoCrxPromise (crx w)) ok2 w1) w1
      = Some w2
    ∧ tasks w2 !! length (tasks w) = Some (Finished (Returned RetUndefined))
    ∧ ReqClose app ∈ sent w2
    ∧ (app, s) ∈ onClose w2
    ∧ crx w2 = empty_slots
    ∧ (∀ t o, tasks w !! t = Some (StartAwait o p) →
         ∃ w3, step (Resume t) w2 = Some w3
               ∧ tasks w3 !! t = Some (Finished (Returned (RetApp app)))).
Proof.
  intros Hslot Hcell Hother.
  set (tid := length (tasks w)).
  set (w0 := spawn (forceReset tid KReturn w)).
  destruct (step_StartReply_pending p s (inl app) w0 Hcell)
    as (w1 & Hstep1 & Hp1 & Ho1 & Ht1 & Hc1 & Hs1 & Hr1 & _).
  assert (Hrun1 : run [CallForceReset; StartReply p (inl app)] w = Some w1)
    by (by apply (run_two _ _ _ w0)).
  assert (Htask1 : tasks w1 !! tid
                   = Some (reset_crx (_crxAppPromise (crx w)) (_incognitoCrxPromise (crx w))
                             KReturn)).
  { rewrite Ht1. apply (spawn_lookup (forceReset tid KReturn w)). }
  assert (Hsp : is_settled (Some p) w1 = true) by (simpl; by rewrite Hp1).
  assert (Hso : is_settled (slot_get (other s) (crx w)) w1 = true)
    by (by apply (is_settled_run _ _ _ _ Hrun1)).
  assert (Hsettled : is_settled (_crxAppPromise (crx w)) w1 = true
                     ∧ is_settled (_incognitoCrxPromise (crx w)) w1 = true).
  { destruct s; simpl in Hslot, Hso; rewrite ?Hslot; auto. }
  destruct Hsettled as [Hsc Hsi].
  destruct (forceReset_runs tid _ _ KReturn ok1 ok2 w1 Htask1 Hsc Hsi)
    as (w2 & Hrun2 & Ht2 & Hc2 & Hp2 & Ho2 & Hr2 & Hsent2 & Hl2 & Hothers).
  exists w1, w2. split; [exact Hrun1 |]. split; [by rewrite Hc1 |].
  split; [by rewrite Hs1 |]. split; [exact Hrun2 |]. split; [exact Ht2 |].
  split; [| split; [| split]].
  - rewrite Hsent2, !elem_of_app. right.
    assert (Hheld : held (Some p) w1 = [ReqClose app]) by (simpl; by rewrite Hp1).
    destruct s; simpl in Hslot; rewrite Hslot, Hheld;
      [left | right]; apply list_elem_of_here.
  - rewrite Ho2, Ho1, elem_of_app. right. apply list_elem_of_here.
  - by rewrite Hc2, Hc1.
  - intros t o Ht.
    assert (Hne : t ≠ tid) by (apply lookup_lt_Some in Ht; unfold tid; lia).
    assert (Ht' : tasks w2 !! t = Some (StartAwait o p)).
    { rewrite (Hothers t Hne), Ht1. unfold w0, spawn. simpl.
      by apply lookup_app_l_Some. }
    assert (Hp' : promise_state p w2 = Some (Fulfilled app)).
    { unfold promise_state. rewrite Hp2. exact Hp1. }
    pose proof (step_Resume_StartAwait _ _ _ _ Ht' _ Hp') as Hstep. simpl in Hstep.
    eexists. split; [exact Hstep |]. by eapply continue_task.
Qed.

Lemma forceReset_closes_session_in_flight_witness :
  let w := world_after [CallStart None] in
  slot_get CrxApp (crx w) = Some 0
  ∧ promises w !! 0 = Some {| p_slot := CrxApp; p_state := Pending |}
  ∧ ∃ w2, run ([CallForceReset; StartReply 0 (inl 6)] ++ [Resume 1; CloseSettled 1 true]) w
          = Some w2
          ∧ ReqClose 6 ∈ sent w2
          ∧ ∃ w3, step (Resume 0) w2 = Some w3
                  ∧ tasks w3 !! 0 = Some (Finished (Returned (RetApp 6))).
Proof.
  intros w.
  assert (H1 : slot_get CrxApp (crx w) = Some 0) by (by vm_compute).
  assert (H2 : promises w !! 0 = Some {| p_slot := CrxApp; p_state := Pending |})
    by (by vm_compute).
  assert (H3 : is_settled (slot_get (other CrxApp) (crx w)) w = true) by (by vm_compute).
  destruct (forceReset_closes_session_in_flight w CrxApp 0 6 true true H1 H2 H3)
    as (w1 & w2 & Hrun1 & _ & _ & Hrun2 & _ & Hclose & _ & _ & Hcaller).
  split; [exact H1 |]. split; [exact H2 |]. exists w2. split; [| split].
  - apply (run_app_Some _ _ _ w1); [exact Hrun1 |].
    assert (E : run [CallForceReset; StartReply 0 (inl 6)] w
                = Some (world_after [CallStart None; CallForceReset; StartReply 0 (inl 6)]))
      by (by vm_compute).
    rewrite E in Hrun1. injection Hrun1 as <-. exact Hrun2.
  - exact Hclose.
  - apply (Hcaller 0 None). by vm_compute.
Defined.

(** ** What a call can throw *)

Lemma promise_state_Some p w st :
  promise_state p w = Some st → ∃ c, promises w !! p = Some c ∧ p_state c = st.
Proof.
  unfold promise_state. destruct (promises w !! p) as [c |]; [| done].
  intros [= <-]. by exists c.
Qed.

Lemma start_not_threw options w e : fst (start options w) ≠ Finished (Threw e).
Proof.
  destruct (slot_get (slot_of options) (crx w)) as [p |] eqn:Hs.
  - by rewrite (start_nonempty _ _ _ Hs).
  - by rewrite (start_empty _ _ Hs).
Qed.

Lemma reset_crx_not_threw old1 old2 k e : reset_crx old1 old2 k ≠ Finished (Threw e).
Proof. by destruct old1, old2, k. Qed.

Lemma reset_incognito_not_threw old k e : reset_incognito old k ≠ Finished (Threw e).
Proof. by destruct old, k. Qed.

Lemma reset_finish_not_threw k e : reset_finish k ≠ Finished (Threw e).
Proof. by destruct k. Qed.

(** A task that is woken ends with an error only by throwing the
    rejection of the promise it waited for. *)
Lemma resume_threw tid pc w r e :
  resume tid pc w = Some r → fst r = Finished (Threw e) →
  ∃ p c, promises w !! p = Some c ∧ p_state c = Rejected e.
Proof.
  destruct pc; simpl; intros Hr Hthrew; try done.
  - destruct (promise_state p w) as [[| app | e0] |] eqn:Hp; simplify_eq; try done.
    apply promise_state_Some in Hp as (c & Hc & Hst).
    unfold start_catch in Hthrew. repeat case_match; simpl in *; simplify_eq; eauto.
  - destruct (promise_state p w) as [[| app | e0] |]; simplify_eq; try done.
    simpl in Hthrew. by apply reset_crx_not_threw in Hthrew.
  - destruct (promise_state p w) as [[| app | e0] |]; simplify_eq; try done.
    by apply reset_incognito_not_threw in Hthrew.
  - destruct (promise_state p w) as [[| app | e0] |]; simplify_eq; try done.
    by apply reset_finish_not_threw in Hthrew.
  - simplify_eq. by apply start_not_threw in Hthrew.
  - destruct (promise_state p w) as [[| app | e0] |] eqn:Hp; simplify_eq; try done.
    simpl in Hthrew. simplify_eq.
    apply promise_state_Some in Hp as (c & Hc & Hst). eauto.
Qed.

Lemma step_threw a w w' t e :
  step a w = Some w' → tasks w' !! t = Some (Finished (Threw e)) →
  tasks w !! t = Some (Finished (Threw e))
  ∨ ∃ p c, promises w !! p = Some c ∧ p_state c = Rejected e.
Proof.
  intros Hstep Ht. destruct a; simpl in Hstep; simplify_option_eq.
  - unfold spawn in Ht. simpl in Ht. rewrite start_tasks in Ht.
    apply lookup_app_Some in Ht as [Ht | [_ Ht]]; [by left |].
    apply list_lookup_singleton_Some in Ht as [_ Ht].
    by apply start_not_threw in Ht.
  - unfold spawn in Ht. simpl in Ht.
    apply lookup_app_Some in Ht as [Ht | [_ Ht]]; [by left |].
    apply list_lookup_singleton_Some in Ht as [_ Ht].
    unfold get in Ht. by repeat case_match.
  - unfold spawn in Ht. simpl in Ht.
    apply lookup_app_Some in Ht as [Ht | [_ Ht]]; [by left |].
    apply list_lookup_singleton_Some in Ht as [_ Ht].
    by apply reset_crx_not_threw in Ht.
  - left. by rewrite <- (start_reply_tasks _ _ _ _ Hstep).
  - match goal with H : resume _ _ _ = Some ?r |- _ =>
      unfold continue in Ht; simpl in Ht; rewrite (resume_tasks _ _ _ _ H) in Ht;
      apply list_lookup_insert_Some in Ht as [(_ & Ht & _) | (_ & Ht)]; [| by left];
      right; exact (resume_threw _ _ _ _ _ H Ht)
    end.
  - repeat case_match; simplify_eq; unfold continue in Ht; simpl in Ht;
      apply list_lookup_insert_Some in Ht as [(_ & Ht & _) | (_ & Ht)];
      try (by left); try done.
    by apply reset_crx_not_threw in Ht.
  - repeat case_match; simplify_eq; unfold continue in Ht; simpl in Ht;
      apply list_lookup_insert_Some in Ht as [(_ & Ht & _) | (_ & Ht)];
      try (by left).
    + by apply reset_incognito_not_threw in Ht.
    + by apply reset_finish_not_threw in Ht.
  - by left.
Qed.

Lemma failures_reported_mono ms ms' w :
  (∀ m, m ∈ ms → m ∈ ms') → failures_reported ms w → failures_reported ms' w.
Proof.
  intros Hsub [Hp Ht]. split.
  - intros p c e Hc He. destruct (Hp p c e Hc He) as (msg & -> & Hin). eauto.
  - intros t e Hte. destruct (Ht t e Hte) as (msg & -> & Hin). eauto.
Qed.

Lemma step_failures_reported ms a w w' :
  failures_reported ms w → step a w = Some w' →
  failures_reported (ms ++ option_list (failure_of a)) w'.
Proof.
  intros [Hp Ht] Hstep.
  assert (Hp' : ∀ p c e, promises w' !! p = Some c → p_state c = Rejected e →
                         ∃ msg, e = RemoteError msg
                                ∧ msg ∈ ms ++ option_list (failure_of a)).
  { intros p c e Hc He.
    assert (Hold : promises w !! p = Some c →
                   ∃ msg, e = RemoteError msg ∧ msg ∈ ms ++ option_list (failure_of a)).
    { intros Hc0. destruct (Hp p c e Hc0 He) as (msg & -> & Hin).
      exists msg. split; [done |]. apply elem_of_app. by left. }
    destruct a as [| | | q r | | | | app];
      try (destruct (step_quiet _ _ _ Hstep I)
             as [(Hpr & _) | (s & _ & Hpr & _)]; rewrite Hpr in Hc;
           [by apply Hold
           | apply lookup_app_Some in Hc as [Hc | [_ Hc]]; [by apply Hold |];
             apply list_lookup_singleton_Some in Hc as [_ <-]; done]).
    - simpl in Hstep.
      destruct (start_reply_inv _ _ _ _ Hstep) as (s & Hpend & _ & Hpr & _).
      rewrite Hpr in Hc.
      apply list_lookup_insert_Some in Hc as [(_ & <- & _) | (_ & Hc)];
        [| by apply Hold].
      simpl in He. destruct r as [app | msg]; [done |]. simplify_eq.
      exists msg. split; [done |]. apply elem_of_app. right. apply list_elem_of_here.
    - simpl in Hstep. simplify_eq. by apply Hold. }
  split; [exact Hp' |].
  intros t e Hte. destruct (step_threw _ _ _ _ _ Hstep Hte) as [Hold | (p & c & Hc & He)].
  - destruct (Ht t e Hold) as (msg & -> & Hin).
    exists msg. split; [done |]. apply elem_of_app. by left.
  - destruct (Hp p c e Hc He) as (msg & -> & Hin).
    exists msg. split; [done |]. apply elem_of_app. by left.
Qed.

Lemma run_failures_reported acts ms w w' :
  failures_reported ms w → run acts w = Some w' →
  failures_reported (ms ++ reported_failures acts) w'.
Proof.
  revert ms w. induction acts as [| a acts IH]; intros ms w Hinv Hrun.
  - simpl in *. simplify_eq. by rewrite app_nil_r.
  - simpl in Hrun. destruct (step a w) as [w1 |] eqn:Hstep; [| done]. simpl in Hrun.
    assert (Hsplit : reported_failures (a :: acts)
                     = option_list (failure_of a) ++ reported_failures acts).
    { unfold reported_failures. simpl. by destruct (failure_of a). }
    rewrite Hsplit, app_assoc.
    apply (IH _ w1); [| done]. by apply (step_failures_reported ms a w w1).
Qed.

(** X6: Whatever calls are made and however they are interleaved with the
    answers and events of the remote host, a call of [start] or [get]
    that ends by throwing throws a failure that the remote host reported
    for some start request; the "already started" error that [start]
    makes itself (lines 79 and 84) never reaches a caller. *)
Theorem thrown_errors_are_reported_failures
    (acts : list Action) (w : World) (t : nat) (e : JsError) :
  run acts init = Some w →
  tasks w !! t = Some (Finished (Threw e)) →
  (∃ msg, e = RemoteError msg ∧ msg ∈ reported_failures acts)
  ∧ ∀ s, e ≠ AlreadyStarted s.
Proof.
  intros Hrun Ht.
  assert (Hinit : failures_reported [] init).
  { split; [intros p c e0 Hc | intros t0 e0 Hc]; simpl in Hc;
      by rewrite lookup_nil in Hc. }
  destruct (run_failures_reported acts [] init w Hinit Hrun) as [_ Hthrown].
  destruct (Hthrown t e Ht) as (msg & -> & Hin).
  split; [by exists msg | done].
Qed.

Lemma thrown_errors_are_reported_failures_witness :
  let acts := [CallStart None; CallGet None; StartReply 0 (inr "net::ERR_FAILED");
               Resume 1; Resume 0] in
  run acts init = Some (world_after acts)
  ∧ tasks (world_after acts) !! 1 = Some (Finished (Threw (RemoteError "net::ERR_FAILED")))
  ∧ "net::ERR_FAILED" ∈ reported_failures acts.
Proof.
  intros acts.
  assert (H1 : run acts init = Some (world_after acts)) by (by vm_compute).
  assert (H2 : tasks (world_after acts) !! 1
               = Some (Finished (Threw (RemoteError "net::ERR_FAILED"))))
    by (by vm_compute).
  destruct (thrown_errors_are_reported_failures acts _ 1 _ H1 H2)
    as [(msg & Hmsg & Hin) _].
  injection Hmsg as <-. done.
Defined.

(** ** Every request is accounted for *)

(** What a step sends, and what it does to the promises. *)
Lemma step_sends a w w' :
  step a w = Some w' →
  (sent w' = sent w
   ∧ (promises w' = promises w
      ∨ ∃ p r, a = StartReply p r ∧ start_reply p r w = Some w'))
  ∨ (∃ o s, sent w' = sent w ++ [ReqStart (default ∅ o)]
            ∧ promises w' = promises w ++ [{| p_slot := s; p_state := Pending |}]
            ∧ (a = CallStart o
               ∨ ∃ t, tasks w !! t = Some (AwaitForceReset o)))
  ∨ (∃ app p c, sent w' = sent w ++ [ReqClose app] ∧ promises w' = promises w
                ∧ promises w !! p = Some c ∧ p_state c = Fulfilled app).
Proof.
  assert (Hstart : ∀ o w0 w1,
            sent w1 = sent (snd (start o w0)) → promises w1 = promises (snd (start o w0)) →
            (sent w1 = sent w0 ∧ promises w1 = promises w0)
            ∨ (∃ s, sent w1 = sent w0 ++ [ReqStart (default ∅ o)]
                    ∧ promises w1 = promises w0 ++ [{| p_slot := s; p_state := Pending |}])).
  { intros o w0 w1. destruct (slot_get (slot_of o) (crx w0)) as [p |] eqn:Hs.
    - rewrite (start_nonempty _ _ _ Hs). auto.
    - rewrite (start_empty _ _ Hs). simpl. right. by exists (slot_of o). }
  intros Hstep. destruct a as [o | o | | p r | t | t ok | t ok | app]; simpl in Hstep;
    simplify_option_eq.
  - destruct (Hstart o w (spawn (start o w)) eq_refl eq_refl) as [[Hs Hp] | (s & Hs & Hp)].
    + left. auto.
    + right. left. exists o, s. auto.
  - left. auto.
  - left. auto.
  - left. unfold start_reply in Hstep.
    split; [by repeat case_match; simplify_eq |]. right. by exists p, r.
  - match goal with Ht : tasks w !! t = Some ?pc, H : resume _ _ _ = Some _ |- _ =>
      destruct pc; simpl in H; repeat case_match; simplify_eq;
        try (left; split; [| left]; simpl; by rewrite ?start_catch_world)
    end.
    + right. right.
      match goal with H : promise_state _ _ = Some (Fulfilled _) |- _ =>
        apply promise_state_Some in H as (c & Hc & Hst) end.
      eexists _, _, c. simpl. eauto.
    + right. right.
      match goal with H : promise_state _ _ = Some (Fulfilled _) |- _ =>
        apply promise_state_Some in H as (c & Hc & Hst) end.
      eexists _, _, c. simpl. eauto.
    + destruct (Hstart options w (continue t (start options w)) eq_refl eq_refl)
        as [[Hs Hp] | (s & Hs & Hp)].
      * left. auto.
      * right. left. exists options, s. eauto.
  - repeat case_match; simplify_eq; left; auto.
  - repeat case_match; simplify_eq; left; auto.
  - left. auto.
Qed.

(** The options a suspended call holds are those it was called with. *)
Lemma step_task_options a w w' t pc o :
  step a w = Some w' → tasks w' !! t = Some pc → pc_options pc = Some o →
  a = CallStart o ∨ ∃ t0 pc0, tasks w !! t0 = Some pc0 ∧ pc_options pc0 = Some o.
Proof.
  assert (Hstart : ∀ o0 w0, pc_options (fst (start o0 w0)) = Some o → o0 = o).
  { intros o0 w0. destruct (slot_get (slot_of o0) (crx w0)) as [p |] eqn:Hs.
    - rewrite (start_nonempty _ _ _ Hs). simpl. congruence.
    - rewrite (start_empty _ _ Hs). simpl. congruence. }
  intros Hstep Ht Ho.
  destruct (decide (wakes a = Some t)) as [Hw | Hw].
  - right. destruct a as [| | | | t' | t' ok | t' ok |]; simpl in Hw; simplify_eq;
      simpl in Hstep.
    + destruct (tasks w !! t) as [pc0 |] eqn:Ht0; [| done]. simpl in Hstep.
      destruct (resume t pc0 w) as [r |] eqn:Hr; [| done]. simpl in Hstep. simplify_eq.
      rewrite (continue_lookup t r pc0) in Ht by (by rewrite (resume_tasks _ _ _ _ Hr)).
      simplify_eq. exists t, pc0. split; [done |].
      destruct pc0 as [| | | ? ? [|] | ? ? [|] | ? [|] | ? [|] | | |]; simpl in Hr;
        repeat case_match; simplify_eq; simpl in *; try done;
        try (unfold start_catch in Ho; repeat case_match; simpl in Ho; by simplify_eq);
        try (by destruct oldIncognito).
      * by destruct (_crxAppPromise (crx w)), (_incognitoCrxPromise (crx w)).
      * f_equal. by apply (Hstart _ w).
    + destruct (tasks w !! t) as [pc0 |] eqn:Ht0; [| done].
      destruct pc0; try done. simplify_eq.
      rewrite (continue_lookup t _ (ProbeAwaitPages options app)) in Ht
        by (by destruct ok).
      simplify_eq. exists t, (ProbeAwaitPages options app). split; [done |].
      destruct ok; simpl in Ho; [done |].
      by destruct (_crxAppPromise (crx w)), (_incognitoCrxPromise (crx w)).
    + destruct (tasks w !! t) as [pc0 |] eqn:Ht0; [| done].
      destruct pc0 as [| | | | app old k | | app k | | |]; try done; simplify_eq.
      * rewrite (continue_lookup t _ (ResetCloseCrx app old k)) in Ht by done.
        simplify_eq. exists t, (ResetCloseCrx app old k). split; [done |].
        by destruct old, k.
      * rewrite (continue_lookup t _ (ResetCloseIncognito app k)) in Ht by done.
        simplify_eq. exists t, (ResetCloseIncognito app k). split; [done |].
        by destruct k.
  - destruct (tasks w !! t) as [pc0 |] eqn:Ht0.
    + right. exists t, pc0. split; [done |].
      rewrite (step_task_other _ _ _ _ _ Hstep Hw Ht0) in Ht. by simplify_eq.
    + (* a task that did not exist: the call that was just made *)
      destruct a as [o0 | o0 | | | | | |]; simpl in Hstep; simplify_option_eq;
        try (by rewrite (start_reply_tasks _ _ _ _ Hstep), Ht0 in Ht);
        try (unfold continue in Ht; simpl in Ht;
             rewrite list_lookup_insert_ne in Ht by congruence;
             repeat case_match; simplify_eq;
             rewrite ?(resume_tasks _ _ _ _ ltac:(eassumption)) in Ht; congruence);
        try (simpl in Ht; congruence).
      * left. f_equal. unfold spawn in Ht. simpl in Ht. rewrite start_tasks in Ht.
        apply lookup_app_Some in Ht as [Ht | [_ Ht]]; [congruence |].
        apply list_lookup_singleton_Some in Ht as [_ <-]. by apply (Hstart _ w).
      * unfold spawn in Ht. simpl in Ht.
        apply lookup_app_Some in Ht as [Ht | [_ Ht]]; [congruence |].
        apply list_lookup_singleton_Some in Ht as [_ <-].
        unfold get in Ho. by repeat case_match.
      * unfold spawn in Ht. simpl in Ht.
        apply lookup_app_Some in Ht as [Ht | [_ Ht]]; [congruence |].
        apply list_lookup_singleton_Some in Ht as [_ <-].
        by destruct (_crxAppPromise (crx w)), (_incognitoCrxPromise (crx w)).
      * repeat case_match; simplify_eq; unfold continue in Ht; simpl in Ht;
          rewrite list_lookup_insert_ne in Ht by congruence; congruence.
      * repeat case_match; simplify_eq; unfold continue in Ht; simpl in Ht;
          rewrite list_lookup_insert_ne in Ht by congruence; congruence.
Qed.

Lemma step_accounted os ss a w w' :
  accounted os ss w → step a w = Some w' →
  accounted (os ++ option_list (call_of a)) (ss ++ option_list (session_of a)) w'.
Proof.
  intros (Itask & Istart & Iful & Iclose & Icount) Hstep.
  assert (Hos : ∀ o, o ∈ os → o ∈ os ++ option_list (call_of a))
    by (intros o Ho; apply elem_of_app; by left).
  assert (Hss : ∀ x, x ∈ ss → x ∈ ss ++ option_list (session_of a))
    by (intros x Hx; apply elem_of_app; by left).
  assert (Jtask : ∀ t pc o, tasks w' !! t = Some pc → pc_options pc = Some o →
                            o ∈ os ++ option_list (call_of a)).
  { intros t pc o Ht Ho.
    destruct (step_task_options _ _ _ _ _ _ Hstep Ht Ho) as [-> | (t0 & pc0 & Ht0 & Ho0)].
    - apply elem_of_app. right. apply list_elem_of_here.
    - by apply Hos, (Itask t0 pc0). }
  split; [exact Jtask |].
  destruct (step_sends _ _ _ Hstep)
    as [[Hsent Hprom] | [(o & s & Hsent & Hprom & Hwho) | (app & p & c & Hsent & Hprom & Hc & Hf)]].
  - (* nothing is sent *)
    split; [| split; [| split]].
    + intros params Hin. rewrite Hsent in Hin.
      destruct (Istart params Hin) as (o & Ho & ->). eauto.
    + intros p c app Hc Hf. destruct Hprom as [Hprom | (q & r & -> & Hreply)].
      * rewrite Hprom in Hc. by apply Hss, (Iful p c).
      * destruct (start_reply_inv _ _ _ _ Hreply) as (s & Hpend & _ & Hpr & _).
        rewrite Hpr in Hc.
        apply list_lookup_insert_Some in Hc as [(_ & <- & _) | (_ & Hc)];
          [| by apply Hss, (Iful p c)].
        simpl in Hf. destruct r as [app0 | msg]; [| done]. simplify_eq.
        apply elem_of_app. right. apply list_elem_of_here.
    + intros app Hin. rewrite Hsent in Hin. by apply Hss, Iclose.
    + rewrite Hsent, Icount. destruct Hprom as [-> | (q & r & -> & Hreply)]; [done |].
      destruct (start_reply_inv _ _ _ _ Hreply) as (s & _ & _ & -> & _).
      by rewrite length_insert.
  - (* a start request is sent *)
    split; [| split; [| split]].
    + intros params Hin. rewrite Hsent in Hin.
      apply elem_of_app in Hin as [Hin | Hin].
      * destruct (Istart params Hin) as (o0 & Ho0 & ->). eauto.
      * apply list_elem_of_singleton in Hin. simplify_eq. exists o. split; [| done].
        destruct Hwho as [-> | (t & Ht)].
        -- apply elem_of_app. right. apply list_elem_of_here.
        -- by apply Hos, (Itask t (AwaitForceReset o)).
    + intros p c app Hc Hf. rewrite Hprom in Hc.
      apply lookup_app_Some in Hc as [Hc | [_ Hc]]; [by apply Hss, (Iful p c) |].
      apply list_lookup_singleton_Some in Hc as [_ <-]. done.
    + intros app Hin. rewrite Hsent in Hin.
      apply elem_of_app in Hin as [Hin | Hin]; [by apply Hss, Iclose |].
      apply list_elem_of_singleton in Hin. done.
    + rewrite Hsent, Hprom, filter_app, !length_app, Icount. done.
  - (* a close request is sent *)
    split; [| split; [| split]].
    + intros params Hin. rewrite Hsent in Hin.
      apply elem_of_app in Hin as [Hin | Hin].
      * destruct (Istart params Hin) as (o0 & Ho0 & ->). eauto.
      * apply list_elem_of_singleton in Hin. done.
    + intros q cq app0 Hq Hfq. rewrite Hprom in Hq. by apply Hss, (Iful q cq).
    + intros app0 Hin. rewrite Hsent in Hin.
      apply elem_of_app in Hin as [Hin | Hin]; [by apply Hss, Iclose |].
      apply list_elem_of_singleton in Hin. simplify_eq. by apply Hss, (Iful p c).
    + rewrite Hsent, Hprom, filter_app, length_app, Icount. simpl. lia.
Qed.

Lemma run_accounted acts os ss w w' :
  accounted os ss w → run acts w = Some w' →
  accounted (os ++ called_options acts) (ss ++ started_sessions acts) w'.
Proof.
  revert os ss w. induction acts as [| a acts IH]; intros os ss w Hinv Hrun.
  - simpl in *. simplify_eq. by rewrite !app_nil_r.
  - simpl in Hrun. destruct (step a w) as [w1 |] eqn:Hstep; [| done]. simpl in Hrun.
    assert (Hos : called_options (a :: acts)
                  = option_list (call_of a) ++ called_options acts).
    { unfold called_options. simpl. by destruct (call_of a). }
    assert (Hss : started_sessions (a :: acts)
                  = option_list (session_of a) ++ started_sessions acts).
    { unfold started_sessions. simpl. by destruct (session_of a). }
    rewrite Hos, Hss, !app_assoc.
    apply (IH _ _ w1); [| done]. by apply (step_accounted os ss a w w1).
Qed.

(** X7: Whatever calls are made and however they are interleaved with the
    answers and events of the remote host: every start request the
    controller has sent carries the options of some call of [start]
    ([{}] for none), also when it was sent by a retry; every close
    request it has sent names a session that the remote host handed out
    in answer to a start request; and it holds exactly one promise for
    each start request it has sent. *)
Theorem requests_are_accounted (acts : list Action) (w : World) :
  run acts init = Some w →
  (∀ params, ReqStart params ∈ sent w →
     ∃ options, CallStart options ∈ acts ∧ params = default ∅ options)
  ∧ (∀ app, ReqClose app ∈ sent w → ∃ p, StartReply p (inl app) ∈ acts)
  ∧ length (filter (λ r, is_start_request r = true) (sent w)) = length (promises w).
Proof.
  intros Hrun.
  assert (Hinit : accounted [] [] init).
  { repeat split; try (intros *; simpl; rewrite ?lookup_nil, ?elem_of_nil; done). }
  destruct (run_accounted acts [] [] init w Hinit Hrun)
    as (_ & Istart & _ & Iclose & Icount).
  simpl in *. split; [| split; [| exact Icount]].
  - intros params Hin. destruct (Istart params Hin) as (o & Ho & ->).
    apply list_elem_of_omap in Ho as (a & Ha & Hcall).
    exists o. split; [| done]. destruct a; simpl in Hcall; by simplify_eq.
  - intros app Hin. apply Iclose, list_elem_of_omap in Hin as (a & Ha & Hs).
    destruct a as [| | | p [app0 | msg] | | | |]; simpl in Hs; simplify_eq.
    by exists p.
Qed.

Lemma requests_are_accounted_witness :
  run refused_retry init = Some (world_after refused_retry)
  ∧ sent (world_after refused_retry) = [ReqStart ∅; ReqClose 7; ReqStart ∅]
  ∧ ∃ p, StartReply p (inl 7) ∈ refused_retry.
Proof.
  assert (H : run refused_retry init = Some (world_after refused_retry)) by (by vm_compute).
  destruct (requests_are_accounted refused_retry _ H) as (_ & Hclose & _).
  split; [exact H |]. split; [by vm_compute |].
  apply Hclose. vm_compute. apply list_elem_of_further, list_elem_of_here.
Defined.

(** ** A retry that finds the slot taken *)

(** A call suspended at the probe of [p] returns the session of [p]
    when it is woken and [context.pages()] succeeds. *)
Lemma probe_succeeds w w' tid options p app acts :
  tasks w !! tid = Some (ProbeAwaitExisting options p) →
  run acts w = Some w' →
  filter (λ a, concerns tid a = true) acts = [Resume tid; PagesSettled tid true] →
  promise_state p w' = Some (Fulfilled app) →
  tasks w' !! tid = Some (Finished (Returned (RetApp app))).
Proof.
  intros Ht0 Hrun Hf Hp.
  destruct (run_task_next _ _ _ _ _ _ Hrun Hf)
    as (pre & post & w1 & w2 & -> & Hrun1 & Hstep & Hrun2 & Hf2 & Hidle).
  specialize (Hidle _ Ht0).
  destruct (step_Resume _ _ _ _ Hidle Hstep) as (r & Hr & -> & Ht2).
  destruct (run_task_next _ _ _ _ _ _ Hrun2 Hf2)
    as (mid & post' & w3 & w4 & -> & Hrun3 & Hstep' & Hrun4 & Hf4 & Hidle').
  specialize (Hidle' _ Ht2).
  simpl in Hr. destruct (promise_state p w1) as [[| app0 | e] |] eqn:Hp1;
    simplify_eq; simpl in *.
  - rewrite Hidle' in Hstep'. simplify_eq.
    assert (Hp' : promise_state p w' = Some (Fulfilled app0)).
    { apply (run_promise_settled _ _ _ _ _ Hrun4); [| done].
      simpl. apply (run_promise_settled _ _ _ _ _ Hrun3); done. }
    rewrite Hp in Hp'. simplify_eq.
    eapply run_task_idle; [exact Hrun4 | done |].
    by apply (continue_lookup _ (_, w3) (ProbeAwaitPages options app0)).
  - rewrite Hidle' in Hstep'.
    unfold reset_crx, reset_incognito, reset_finish in Hstep'.
    repeat case_match; simplify_eq.
Qed.

(** X8: When, during the forced reset of a recovering [start], another
    caller has taken the slot, the retry (line 102) sends no second
    start request: it probes the promise of that caller and, the probe
    succeeding, returns the session that promise is fulfilled with. *)
Theorem retry_joins_concurrent_start
    (w w' : World) (tid : nat) (options : option Obj) (q app : nat)
    (acts : list Action) :
  tasks w !! tid = Some (AwaitForceReset options) →
  slot_get (slot_of options) (crx w) = Some q →
  run (Resume tid :: acts) w = Some w' →
  filter (λ a, concerns tid a = true) acts = [Resume tid; PagesSettled tid true] →
  promise_state q w' = Some (Fulfilled app) →
  (∃ w1, step (Resume tid) w = Some w1
         ∧ sent w1 = sent w ∧ crx w1 = crx w ∧ promises w1 = promises w
         ∧ tasks w1 !! tid = Some (ProbeAwaitExisting options q))
  ∧ tasks w' !! tid = Some (Finished (Returned (RetApp app))).
Proof.
  intros Ht Hslot Hrun Hf Hp.
  set (w1 := continue tid (ProbeAwaitExisting options q, w)).
  assert (Hstep : step (Resume tid) w = Some w1).
  { apply (step_Resume_eq _ _ _ _ Ht). simpl. by rewrite (start_nonempty _ _ _ Hslot). }
  assert (Ht1 : tasks w1 !! tid = Some (ProbeAwaitExisting options q))
    by (by eapply continue_task).
  split; [by exists w1 |].
  change (run (Resume tid :: acts) w) with (step (Resume tid) w ≫= run acts) in Hrun.
  rewrite Hstep in Hrun.
  by apply (probe_succeeds w1 w' tid options q app acts).
Qed.

Lemma retry_joins_concurrent_start_witness :
  let before := [CallStart None; StartReply 0 (inl 1); Resume 0;
                 CallStart None; Resume 1; PagesSettled 1 false; Resume 1;
                 CallStart None; CloseSettled 1 true] in
  let acts := [StartReply 1 (inl 2); Resume 1; PagesSettled 1 true; Resume 2] in
  let w := world_after before in
  let w' := world_after (before ++ Resume 1 :: acts) in
  tasks w !! 1 = Some (AwaitForceReset None)
  ∧ slot_get (slot_of None) (crx w) = Some 1
  ∧ run (Resume 1 :: acts) w = Some w'
  ∧ tasks w' !! 1 = Some (Finished (Returned (RetApp 2)))
  ∧ tasks w' !! 2 = Some (Finished (Returned (RetApp 2)))
  ∧ sent w' = [ReqStart ∅; ReqClose 1; ReqStart ∅].
Proof.
  intros before acts w w'.
  assert (H1 : tasks w !! 1 = Some (AwaitForceReset None)) by (by vm_compute).
  assert (H2 : slot_get (slot_of None) (crx w) = Some 1) by (by vm_compute).
  assert (H3 : run (Resume 1 :: acts) w = Some w') by (by vm_compute).
  assert (H4 : filter (λ a, concerns 1 a = true) acts = [Resume 1; PagesSettled 1 true])
    by (by vm_compute).
  assert (H5 : promise_state 1 w' = Some (Fulfilled 2)) by (by vm_compute).
  destruct (retry_joins_concurrent_start w w' 1 None 1 2 acts H1 H2 H3 H4 H5)
    as [_ Htask].
  split; [exact H1 |]. split; [exact H2 |]. split; [exact H3 |].
  split; [exact Htask |]. split; by vm_compute.
Defined.

(** ** The close handlers stay subscribed (line 112) *)

Lemma step_onClose a w w' :
  step a w = Some w' → ∃ new, onClose w' = onClose w ++ new.
Proof.
  intros Hstep. destruct a as [| | | p r | | | | app].
  1-3, 5-7: destruct (step_quiet _ _ _ Hstep I) as [(_ & -> & _) | (s & _ & _ & ->)];
            exists []; by rewrite app_nil_r.
  - destruct (start_reply_inv _ _ _ _ Hstep) as (s & _ & _ & _ & ->). by eexists.
  - simpl in Hstep. simplify_eq. exists []. by rewrite app_nil_r.
Qed.

(** X10: The close event of a session empties exactly the slots of the modes
    the session is subscribed for and changes nothing else; the
    subscription itself stays (it is made with [on], not [once]), so in
    every continuation, whatever is started or reset, a further close
    event of that session empties those slots again. *)
Theorem close_handler_stays_subscribed
    (w w' : World) (app : nat) (s : Slot) (acts : list Action) :
  (app, s) ∈ onClose w →
  run acts w = Some w' →
  (app, s) ∈ onClose w'
  ∧ slot_get s (crx (emit_close app w')) = None
  ∧ (∀ s', (app, s') ∉ onClose w' →
           slot_get s' (crx (emit_close app w')) = slot_get s' (crx w'))
  ∧ step (EmitClose app) w' = Some (emit_close app w')
  ∧ onClose (emit_close app w') = onClose w'
  ∧ promises (emit_close app w') = promises w'
  ∧ tasks (emit_close app w') = tasks w'
  ∧ sent (emit_close app w') = sent w'.
Proof.
  intros Hin Hrun.
  assert (Hin' : (app, s) ∈ onClose w').
  { revert w Hin Hrun. induction acts as [| a acts IH]; intros w Hin Hrun; simpl in Hrun.
    - by simplify_eq.
    - destruct (step a w) as [w1 |] eqn:Hstep; [| done]. simpl in Hrun.
      apply (IH w1); [| done].
      destruct (step_onClose _ _ _ Hstep) as [new ->]. apply elem_of_app. by left. }
  split; [exact Hin' |]. split; [| split; [| done]].
  - rewrite emit_close_slot. by rewrite decide_True.
  - intros s' Hnot. rewrite emit_close_slot. by rewrite decide_False.
Qed.

Lemma close_handler_stays_subscribed_witness :
  let w := world_after [CallStart None; StartReply 0 (inl 1); Resume 0; EmitClose 1] in
  let acts := [CallStart None; StartReply 1 (inl 2); Resume 1] in
  let w' := world_after ([CallStart None; StartReply 0 (inl 1); Resume 0; EmitClose 1]
                         ++ acts) in
  (1, CrxApp) ∈ onClose w
  ∧ run acts w = Some w'
  ∧ slot_get CrxApp (crx w') = Some 1
  ∧ slot_get CrxApp (crx (emit_close 1 w')) = None.
Proof.
  intros w acts w'.
  assert (H1 : (1, CrxApp) ∈ onClose w) by (vm_compute; apply list_elem_of_here).
  assert (H2 : run acts w = Some w') by (by vm_compute).
  destruct (close_handler_stays_subscribed w w' 1 CrxApp acts H1 H2) as (_ & Hslot & _).
  split; [exact H1 |]. split; [exact H2 |]. split; [by vm_compute | exact Hslot].
Defined.
